(** * Tuple access strategy of the storage layer

    A shallow embedding of [src/include/storage/tuple_access_strategy.h]
    (namespace [terrier::storage]): the layout calculator [BlockLayout],
    the reinterpreting views [Block] and [MiniBlock] over raw memory, and
    [TupleAccessStrategy].

    Machine integers are [Z] with the wrap-around of their C++ type written
    out; raw memory is a byte-addressed store and every pointer is the
    address it holds. *)

From Stdlib Require Import ZArith List Lia Bool.
Import ListNotations.
Local Open Scope Z_scope.

(** ** Machine integers *)

Definition u8 (x : Z) : Z := x mod 2 ^ 8.
Definition u32 (x : Z) : Z := x mod 2 ^ 32.

(** ** BlockLayout *)

Record BlockLayout : Type := mkLayout {
  num_attrs_ : Z;            (* const uint16_t *)
  attr_sizes_ : list Z;      (* const std::vector<const uint8_t> *)
  tuple_size_ : Z;           (* const uint32_t *)
  header_size_ : Z;          (* const uint32_t *)
  num_slots_ : Z             (* const uint32_t *)
}.

(** [uint32_t result = 0; for (auto size : attr_sizes_) result += size;] *)
Definition ComputeTupleSize (attr_sizes : list Z) : Z :=
  fold_left (fun result size => u32 (result + size)) attr_sizes 0.

(** [sizeof(uint32_t) * 3 + num_attrs_ * sizeof(uint32_t) + sizeof(uint16_t)
     + num_attrs_ * sizeof(uint8_t)], returned as [uint32_t]. *)
Definition HeaderSize (num_attrs : Z) : Z :=
  u32 (4 * 3 + num_attrs * 4 + 2 + num_attrs * 1).

Section Layout.

(** [Constants::BLOCK_SIZE] is declared in [storage/storage_defs.h]; it is a
    32-bit configuration constant of the process and stays a parameter. *)
Variable BLOCK_SIZE : Z.

(** [8 * (Constants::BLOCK_SIZE - header_size_) / (8 * tuple_size_ + num_attrs_) - 1],
    every operation on [uint32_t].  The divisor is 0 only for a layout
    without attributes; there the unsigned division of the code traps and
    the constructor does not return, while [/] on [Z] gives 0: what is
    proved of the result is stated for layouts with at least one attribute
    ([NumSlots_divisor_nonzero]). *)
Definition NumSlots_quotient (num_attrs tuple_size header_size : Z) : Z :=
  u32 (8 * u32 (BLOCK_SIZE - header_size))
  / u32 (u32 (8 * tuple_size) + num_attrs).

Definition NumSlots (num_attrs tuple_size header_size : Z) : Z :=
  u32 (NumSlots_quotient num_attrs tuple_size header_size - 1).

(** The constructor: the cached members are initialised in declaration
    order, each from the ones before it. *)
Definition mkBlockLayout (num_attrs : Z) (attr_sizes : list Z) : BlockLayout :=
  let tuple_size := ComputeTupleSize attr_sizes in
  let header_size := HeaderSize num_attrs in
  {| num_attrs_ := num_attrs;
     attr_sizes_ := attr_sizes;
     tuple_size_ := tuple_size;
     header_size_ := header_size;
     num_slots_ := NumSlots num_attrs tuple_size header_size |}.

End Layout.

(** What the constructor requires of its arguments: [num_attrs] is a
    [uint16_t] equal to [attr_sizes.size()] (the [PELOTON_ASSERT]), and every
    attribute is a [uint8_t] of at least one byte. *)
Definition attr_size_ok (size : Z) : Prop := 1 <= size < 2 ^ 8.

Definition layout_input_ok (num_attrs : Z) (attr_sizes : list Z) : Prop :=
  num_attrs = Z.of_nat (length attr_sizes)
  /\ num_attrs < 2 ^ 16
  /\ Forall attr_size_ok attr_sizes.

(** *** The layout formulas as the specification words them (over the integers) *)

Definition sumZ (l : list Z) : Z := fold_right Z.add 0 l.

Definition tuple_size_spec (attr_sizes : list Z) : Z := sumZ attr_sizes.

Definition header_size_spec (N : Z) : Z := 3 * 4 + N * 4 + 2 + N * 1.

Definition slot_count_spec (BLOCK_SIZE N : Z) (attr_sizes : list Z) : Z :=
  8 * (BLOCK_SIZE - header_size_spec N) / (8 * tuple_size_spec attr_sizes + N) - 1.

(** Modelled from the spec: [BitmapSize] of [common/concurrent_bitmap.h] is not
    among the sources; a bitmap of [n] bits is padded up to whole bytes,
    [ceil(n / 8)]. *)
Definition BitmapSize (n : Z) : Z := (n + 7) / 8.

(** Bytes of one mini-block: the padded null bitmap, then the value array. *)
Definition mini_block_bytes (num_slots attr_size : Z) : Z :=
  BitmapSize num_slots + num_slots * attr_size.

(** Bytes of a whole block laid out for [l]: header, then one mini-block per
    attribute. *)
Definition block_bytes (l : BlockLayout) : Z :=
  header_size_ l
  + sumZ (map (mini_block_bytes (num_slots_ l)) (attr_sizes_ l)).

(** A layout with 4032 attributes of 255 bytes: one tuple is wider than a
    block of 1 MB. *)
Definition wide_attr_sizes : list Z := repeat 255 4032.

(** ** Raw memory

    A [RawBlock *] is an address; a block is reinterpreted from the bytes
    found there.  Multi-byte fields are stored least significant byte first. *)

Definition memory : Type := Z -> Z.

Definition nullptr : Z := 0.

Definition store8 (m : memory) (a v : Z) : memory :=
  fun x => if x =? a then u8 v else m x.

Definition load16 (m : memory) (a : Z) : Z :=
  m a + 2 ^ 8 * m (a + 1).

Definition store16 (m : memory) (a v : Z) : memory :=
  store8 (store8 m a v) (a + 1) (v / 2 ^ 8).

Definition load32 (m : memory) (a : Z) : Z :=
  m a + 2 ^ 8 * m (a + 1) + 2 ^ 16 * m (a + 2) + 2 ^ 24 * m (a + 3).

Definition store32 (m : memory) (a v : Z) : memory :=
  store8 (store8 (store8 (store8 m a v) (a + 1) (v / 2 ^ 8))
                 (a + 2) (v / 2 ^ 16))
         (a + 3) (v / 2 ^ 24).

(** ** RawConcurrentBitmap *)

Module RawConcurrentBitmap.

(** Modelled from the spec: [RawConcurrentBitmap] of
    [common/concurrent_bitmap.h] is not among the sources.  [Test] reads bit
    [pos] of the byte array without side effects. *)
Definition Test (m : memory) (bitmap pos : Z) : bool :=
  Z.testbit (m (bitmap + pos / 8)) (pos mod 8).

(** Modelled from the spec: the atomic conditional flip of
    [RawConcurrentBitmap], one indivisible step that reports whether it
    flipped the bit.  The specification leaves the reading of the boolean
    argument to the bitmap's own contract; the call sites in the header fix
    it as the value the bit must currently hold for the flip to happen:
    [Flip(pos, false)] is commented "Noop if not null" and [Flip(pos, true)]
    "Noop if already null", where a 0 bit means null, and [Allocate] claims
    a free (0) slot with [Flip(i, false)].  How the bits are numbered inside
    a byte cannot be observed through [Test] and [Flip]. *)
Definition Flip (m : memory) (bitmap pos : Z) (expected_val : bool)
  : memory * bool :=
  let element := bitmap + pos / 8 in
  let old_val := m element in
  if Bool.eqb (Z.testbit old_val (pos mod 8)) expected_val
  then (store8 m element (Z.lxor old_val (Z.shiftl 1 (pos mod 8))), true)
  else (m, false).

End RawConcurrentBitmap.

(** ** MiniBlock *)

Module MiniBlock.

(** [varlen_contents_ + BitmapSize(layout.num_slots_)]; [varlen_contents_]
    is the first member, at the address of the mini-block itself. *)
Definition ColumnStart (this : Z) (layout : BlockLayout) : Z :=
  this + BitmapSize (num_slots_ layout).

Definition NullBitmap (this : Z) : Z := this.

End MiniBlock.

(** ** Block

    A packed struct: [block_id_] at byte 0, [num_records_] at byte 4,
    [varlen_contents_] from byte 8.  ([block_id_t] is declared in
    [storage/storage_defs.h]; the header comment of [Block] gives it 32
    bits, like the other leading fields.) *)

Module Block.

Definition varlen_contents_ (this : Z) : Z := this + 4 + 4.

(** [*reinterpret_cast<uint32_t *>(varlen_contents_)]: the reference, as an
    address. *)
Definition NumSlots (this : Z) : Z := varlen_contents_ this.

(** [&NumSlots() + 1] on a [uint32_t *]. *)
Definition AttrOffets (this : Z) : Z := NumSlots this + 4.

(** [reinterpret_cast<byte *>(this) + AttrOffets()[offset]] *)
Definition Column (m : memory) (this offset : Z) : Z :=
  this + load32 m (AttrOffets this + 4 * offset).

(** [*reinterpret_cast<uint16_t *>(AttrOffets()[layout.num_attrs_])]: the
    32-bit element read from the array is itself cast to the pointer. *)
Definition NumAttrs (m : memory) (this : Z) (layout : BlockLayout) : Z :=
  load32 m (AttrOffets this + 4 * num_attrs_ layout).

(** [reinterpret_cast<uint8_t *>(NumAttrs(layout) + 1)]: the 16-bit value
    read through the reference, plus one, is cast to the pointer. *)
Definition AttrSizes (m : memory) (this : Z) (layout : BlockLayout) : Z :=
  load16 m (NumAttrs m this layout) + 1.

(** Where the header comment of [Block] places the two fields: [num_attrs]
    right after the [attr_offsets] array, [attr_sizes] right after it. *)
Definition num_attrs_field (this : Z) (layout : BlockLayout) : Z :=
  AttrOffets this + 4 * num_attrs_ layout.

Definition attr_sizes_field (this : Z) (layout : BlockLayout) : Z :=
  num_attrs_field this layout + 2.

End Block.

(** ** InitializeRawBlock *)

(** Modelled from the spec: the body of [InitializeRawBlock] is not among the
    sources (the header only declares it).  Step 4 of the initialization
    contract: walk the columns in order, mini-block [i] right after
    mini-block [i - 1], the first one right after the header. *)
Fixpoint write_attr_offsets (m : memory) (block num_slots i attr_offset : Z)
  (attr_sizes : list Z) : memory :=
  match attr_sizes with
  | [] => m
  | size :: rest =>
      write_attr_offsets
        (store32 m (Block.AttrOffets block + 4 * i) attr_offset)
        block num_slots (i + 1)
        (u32 (attr_offset + mini_block_bytes num_slots size)) rest
  end.

(** Modelled from the spec: step 5, the copy of [attr_sizes], one byte each. *)
Fixpoint write_attr_sizes (m : memory) (p : Z) (attr_sizes : list Z) : memory :=
  match attr_sizes with
  | [] => m
  | size :: rest => write_attr_sizes (store8 m p size) (p + 1) rest
  end.

(** Modelled from the spec: steps 1 to 5 of the initialization contract;
    [num_records_] is left as the zeroed memory has it. *)
Definition InitializeRawBlock (m : memory) (raw : Z) (layout : BlockLayout)
  (id : Z) : memory :=
  let m1 := store32 m raw id in
  let m3 := store32 m1 (Block.NumSlots raw) (num_slots_ layout) in
  let m4 := write_attr_offsets m3 raw (num_slots_ layout) 0
              (header_size_ layout) (attr_sizes_ layout) in
  let m5 := store16 m4 (Block.num_attrs_field raw layout) (num_attrs_ layout) in
  write_attr_sizes m5 (Block.attr_sizes_field raw layout) (attr_sizes_ layout).

(** ** TupleAccessStrategy *)

Definition PRIMARY_KEY_OFFSET : Z := 0.

Module TupleAccessStrategy.

Section Strategy.

Variable layout_ : BlockLayout.

Definition ColumnNullBitmap (m : memory) (block column_offset : Z) : Z :=
  MiniBlock.NullBitmap (Block.Column m block column_offset).

Definition ColumnStart (m : memory) (block column_offset : Z) : Z :=
  MiniBlock.ColumnStart (Block.Column m block column_offset) layout_.

(** [layout_.attr_sizes_[column_offset] * pos]: a [uint8_t] times a
    [uint32_t], computed on 32 bits. *)
Definition attr_offset_in_column (column_offset pos : Z) : Z :=
  u32 (nth (Z.to_nat column_offset) (attr_sizes_ layout_) 0 * pos).

Definition AccessWithNullCheck (m : memory) (block column_offset pos : Z) : Z :=
  if negb (RawConcurrentBitmap.Test m (ColumnNullBitmap m block column_offset) pos)
  then nullptr
  else ColumnStart m block column_offset
       + attr_offset_in_column column_offset pos.

Definition AccessForceNotNull (m : memory) (block column_offset pos : Z)
  : memory * Z :=
  let (m', _) :=
    RawConcurrentBitmap.Flip m (ColumnNullBitmap m block column_offset) pos false in
  (m', ColumnStart m' block column_offset
       + attr_offset_in_column column_offset pos).

Definition SetNull (m : memory) (block column_offset pos : Z) : memory :=
  fst (RawConcurrentBitmap.Flip m (ColumnNullBitmap m block column_offset) pos true).

(** The [for] loop of [Allocate], with [remaining = num_slots_ - i]
    iterations left; the result is the returned flag, the memory and the
    [offset] reference. *)
Fixpoint Allocate_loop (remaining : nat) (bitmap i : Z) (m : memory)
  (offset : Z) : bool * memory * Z :=
  match remaining with
  | O => (false, m, offset)
  | S remaining' =>
      let (m', flipped) := RawConcurrentBitmap.Flip m bitmap i false in
      if flipped then (true, m', i)
      else Allocate_loop remaining' bitmap (i + 1) m' offset
  end.

Definition Allocate (m : memory) (block offset : Z) : bool * memory * Z :=
  Allocate_loop (Z.to_nat (num_slots_ layout_))
    (ColumnNullBitmap m block PRIMARY_KEY_OFFSET) 0 m offset.

End Strategy.

End TupleAccessStrategy.

(** ** Sequential runs of [Allocate] *)

(** [n] calls one after the other on the same block, each with the offset
    variable reset to [offset0]; the results in call order, and the memory
    left behind. *)
Fixpoint allocate_n (layout : BlockLayout) (n : nat) (m : memory)
  (block offset0 : Z) : list (bool * Z) * memory :=
  match n with
  | O => ([], m)
  | S n' =>
      let '(ok, m', offset) := TupleAccessStrategy.Allocate layout m block offset0 in
      let (rs, m'') := allocate_n layout n' m' block offset0 in
      ((ok, offset) :: rs, m'')
  end.

(** ** Predicates on blocks *)

(** Where initialization places mini-block [c]: after the header and the
    mini-blocks of the columns before it. *)
Definition column_offset_of (layout : BlockLayout) (c : Z) : Z :=
  header_size_ layout
  + sumZ (map (mini_block_bytes (num_slots_ layout))
              (firstn (Z.to_nat c) (attr_sizes_ layout))).

(** The header of the block at [block] holds the offsets that initialization
    writes for [layout]. *)
Definition header_ok (layout : BlockLayout) (m : memory) (block : Z) : Prop :=
  forall c, 0 <= c < num_attrs_ layout ->
    load32 m (Block.AttrOffets block + 4 * c) = column_offset_of layout c.

(** Every byte of the [size] bytes at [block] is 0, as the block store hands
    blocks out. *)
Definition zero_filled (m : memory) (block size : Z) : Prop :=
  forall a, block <= a < block + size -> m a = 0.

Definition zero_memory : memory := fun _ => 0.

(** A layout the block store can serve: well-formed constructor arguments,
    a 32-bit block size that leaves room after the header, and a quotient of
    at least 1 in [NumSlots], so that the subtraction does not wrap. *)
Definition layout_valid (BLOCK_SIZE num_attrs : Z) (attr_sizes : list Z) : Prop :=
  layout_input_ok num_attrs attr_sizes
  /\ BLOCK_SIZE < 2 ^ 32
  /\ HeaderSize num_attrs < BLOCK_SIZE
  /\ 1 <= NumSlots_quotient BLOCK_SIZE num_attrs
            (ComputeTupleSize attr_sizes) (HeaderSize num_attrs).

(** Every slot of the block is free: the presence bit of each slot, in the
    null bitmap of the primary-key column, is 0. *)
Definition slots_free (layout : BlockLayout) (m : memory) (block : Z) : Prop :=
  forall i, 0 <= i < num_slots_ layout ->
    RawConcurrentBitmap.Test m
      (TupleAccessStrategy.ColumnNullBitmap m block PRIMARY_KEY_OFFSET) i = false.

(** The block after [k] sequential calls of [Allocate] on a fresh block: the
    header is intact and exactly the presence bits of the slots below [k]
    are set. *)
Definition claimed_below (layout : BlockLayout) (k : Z) (m : memory)
  (block : Z) : Prop :=
  header_ok layout m block
  /\ forall i, 0 <= i < num_slots_ layout ->
       RawConcurrentBitmap.Test m (block + header_size_ layout) i = (i <? k).

(** What [n] sequential calls on a fresh block of [num_slots] slots are to
    return: call number [k] (from 0) claims slot [k] while [k < num_slots],
    and later calls find no space and leave the offset variable alone. *)
Definition expected_allocations (num_slots : Z) (n : nat) (offset0 : Z)
  : list (bool * Z) :=
  map (fun k => if Z.of_nat k <? num_slots then (true, Z.of_nat k)
                else (false, offset0))
      (seq 0 n).

(** The offsets of the calls that returned true. *)
Definition successful_offsets (results : list (bool * Z)) : list Z :=
  map snd (filter fst results).

(** ** Concurrent calls of [Allocate]

    Each call in flight is a small state machine over the shared memory; one
    step of a call is what it does up to and including its next access to
    the bitmap, which [Flip] performs atomically.  A schedule names the call
    that moves next; every interleaving of the calls is some schedule. *)

Module Concurrent.

Inductive call : Type :=
| Entered                         (* called; the bitmap pointer is not read yet *)
| Scanning (bitmap i : Z)         (* at the loop test, with index [i] *)
| Returned (result : option Z).   (* [Some i]: true with offset [i]; [None]: false *)

Definition running (c : call) : bool :=
  match c with Returned _ => false | _ => true end.

Section Calls.

Variable layout_ : BlockLayout.
Variable block : Z.

Definition call_step (m : memory) (c : call) : memory * call :=
  match c with
  | Entered =>
      (m, Scanning (TupleAccessStrategy.ColumnNullBitmap m block PRIMARY_KEY_OFFSET) 0)
  | Scanning bitmap i =>
      if i <? num_slots_ layout_ then
        let (m', flipped) := RawConcurrentBitmap.Flip m bitmap i false in
        if flipped then (m', Returned (Some i))
        else (m', Scanning bitmap (i + 1))
      else (m, Returned None)
  | Returned r => (m, Returned r)
  end.

(** One call run alone to its end, in at most [steps] steps. *)
Fixpoint call_run (steps : nat) (m : memory) (c : call) : memory * call :=
  match steps with
  | O => (m, c)
  | S steps' => let (m', c') := call_step m c in call_run steps' m' c'
  end.

Fixpoint set_call (cs : list call) (t : nat) (c : call) : list call :=
  match cs, t with
  | [], _ => []
  | _ :: rest, O => c :: rest
  | c0 :: rest, S t' => c0 :: set_call rest t' c
  end.

Fixpoint run (schedule : list nat) (m : memory) (cs : list call)
  : memory * list call :=
  match schedule with
  | [] => (m, cs)
  | t :: rest =>
      match nth_error cs t with
      | Some c => let (m', c') := call_step m c in run rest m' (set_call cs t c')
      | None => run rest m cs
      end
  end.

(** An upper bound on the steps a call still takes before it returns. *)
Definition steps_left (c : call) : nat :=
  match c with
  | Entered => 2 + Z.to_nat (num_slots_ layout_)
  | Scanning _ i => 1 + Z.to_nat (num_slots_ layout_ - i)
  | Returned _ => 0
  end.

End Calls.

(** The slot indices handed out so far, in the order of the calls. *)
Definition claimed (cs : list call) : list Z :=
  flat_map (fun c => match c with Returned (Some i) => [i] | _ => [] end) cs.

Definition all_returned (cs : list call) : bool :=
  forallb (fun c => negb (running c)) cs.

Definition some_failed (cs : list call) : bool :=
  existsb (fun c => match c with Returned None => true | _ => false end) cs.

(** What holds of the shared block and the calls in flight at every point of
    every schedule. *)
Record invariant (layout : BlockLayout) (block bitmap : Z)
  (m0 m : memory) (cs : list call) : Prop := {
  inv_header : header_ok layout m block;
  inv_monotone : forall i, 0 <= i < num_slots_ layout ->
      RawConcurrentBitmap.Test m0 bitmap i = true ->
      RawConcurrentBitmap.Test m bitmap i = true;
  inv_scanning : forall b i, In (Scanning b i) cs ->
      b = bitmap /\ 0 <= i <= num_slots_ layout
      /\ forall j, 0 <= j < i -> RawConcurrentBitmap.Test m bitmap j = true;
  inv_failed : In (Returned None) cs ->
      forall j, 0 <= j < num_slots_ layout ->
        RawConcurrentBitmap.Test m bitmap j = true;
  inv_claimed : forall i, In i (claimed cs) ->
      0 <= i < num_slots_ layout
      /\ RawConcurrentBitmap.Test m bitmap i = true
      /\ RawConcurrentBitmap.Test m0 bitmap i = false;
  inv_nodup : NoDup (claimed cs);
  inv_set : forall i, 0 <= i < num_slots_ layout ->
      RawConcurrentBitmap.Test m bitmap i = true ->
      RawConcurrentBitmap.Test m0 bitmap i = true \/ In i (claimed cs)
}.

End Concurrent.

(** ** Example inputs *)

(** Two attributes of 8 and 4 bytes in 1 MB blocks. *)
Definition example_layout : BlockLayout := mkBlockLayout 1048576 2 [8; 4].

(** A block at address [0x100000], initialized with id 7 from zeroed
    memory. *)
Definition example_block : Z := 1048576.

Definition example_memory : memory :=
  InitializeRawBlock zero_memory example_block example_layout 7.

(** The layout of the end-to-end scenario: attributes of 8 and 4 bytes in
    blocks of 1264 bytes, which makes 100 slots. *)
Definition scenario_layout : BlockLayout := mkBlockLayout 1264 2 [8; 4].

Definition scenario_memory : memory :=
  InitializeRawBlock zero_memory example_block scenario_layout 7.

(** One attribute of 4 bytes in blocks of 32 bytes: two slots. *)
Definition small_layout : BlockLayout := mkBlockLayout 32 1 [4].

Definition small_memory : memory :=
  InitializeRawBlock zero_memory example_block small_layout 7.

(** ** Layout calculator: lemmas *)

Lemma u32_small x : 0 <= x < 2 ^ 32 -> u32 x = x.
Proof. intros H. unfold u32. now apply Z.mod_small. Qed.

Lemma u32_range x : 0 <= u32 x < 2 ^ 32.
Proof. unfold u32. apply Z.mod_pos_bound. lia. Qed.

Lemma u32_le x : 0 <= x -> u32 x <= x.
Proof. intros H. unfold u32. apply Z.mod_le; lia. Qed.

Lemma sumZ_bounds (l : list Z) :
  Forall attr_size_ok l ->
  Z.of_nat (length l) <= sumZ l <= 255 * Z.of_nat (length l).
Proof.
  induction 1 as [|x l Hx _ IH]; simpl sumZ; simpl length.
  - lia.
  - unfold attr_size_ok in Hx. lia.
Qed.

Lemma fold_left_u32_add (l : list Z) (acc : Z) :
  Forall attr_size_ok l ->
  0 <= acc ->
  acc + 255 * Z.of_nat (length l) < 2 ^ 32 ->
  fold_left (fun result size => u32 (result + size)) l acc = acc + sumZ l.
Proof.
  intros Hl. revert acc.
  induction Hl as [|x l Hx _ IH]; intros acc Hacc Hb; simpl.
  - lia.
  - unfold attr_size_ok in Hx.
    simpl length in Hb. rewrite Nat2Z.inj_succ in Hb.
    rewrite u32_small by lia.
    rewrite IH by lia. lia.
Qed.

Lemma ComputeTupleSize_sum (N : Z) (sizes : list Z) :
  layout_input_ok N sizes -> ComputeTupleSize sizes = sumZ sizes.
Proof.
  intros (HN & Hlt & Hall). unfold ComputeTupleSize.
  rewrite fold_left_u32_add; auto; lia.
Qed.

Lemma HeaderSize_exact (N : Z) (sizes : list Z) :
  layout_input_ok N sizes -> HeaderSize N = 14 + 5 * N.
Proof.
  intros (HN & Hlt & _). unfold HeaderSize.
  rewrite u32_small; lia.
Qed.

Lemma sumZ_mini_blocks (S : Z) (sizes : list Z) :
  sumZ (map (mini_block_bytes S) sizes)
  = Z.of_nat (length sizes) * BitmapSize S + S * sumZ sizes.
Proof.
  induction sizes as [|x l IH]; simpl sumZ; simpl length; simpl map.
  - lia.
  - simpl sumZ. rewrite IH, Nat2Z.inj_succ. unfold mini_block_bytes. lia.
Qed.

Lemma BitmapSize_bounds (n : Z) : n <= 8 * BitmapSize n <= n + 7.
Proof.
  unfold BitmapSize.
  pose proof (Z.div_mod (n + 7) 8 ltac:(lia)).
  pose proof (Z.mod_pos_bound (n + 7) 8 ltac:(lia)).
  lia.
Qed.

Lemma Forall_repeat_attr (x : Z) (n : nat) :
  attr_size_ok x -> Forall attr_size_ok (repeat x n).
Proof.
  intros Hx. apply Forall_forall. intros y Hy.
  apply repeat_spec in Hy. now subst.
Qed.

Lemma wide_attr_sizes_ok : layout_input_ok 4032 wide_attr_sizes.
Proof.
  unfold layout_input_ok, wide_attr_sizes. rewrite repeat_length.
  repeat split; try lia.
  apply Forall_repeat_attr. unfold attr_size_ok. lia.
Qed.

Lemma denominator_exact (N : Z) (sizes : list Z) :
  layout_input_ok N sizes ->
  u32 (u32 (8 * sumZ sizes) + N) = 8 * sumZ sizes + N.
Proof.
  intros (HN & Hlt & Hall).
  pose proof (sumZ_bounds sizes Hall) as Hs.
  rewrite (u32_small (8 * _)) by lia.
  rewrite u32_small; lia.
Qed.

Section LayoutTheorems.

Variable BLOCK_SIZE : Z.

(** The members of a constructed layout, with the wrap-around resolved for
    well-formed constructor arguments. *)
Lemma mkBlockLayout_fields (N : Z) (sizes : list Z) :
  layout_input_ok N sizes ->
  let l := mkBlockLayout BLOCK_SIZE N sizes in
  num_attrs_ l = N /\ attr_sizes_ l = sizes
  /\ tuple_size_ l = sumZ sizes
  /\ header_size_ l = 14 + 5 * N
  /\ num_slots_ l
     = u32 (u32 (8 * u32 (BLOCK_SIZE - (14 + 5 * N))) / (8 * sumZ sizes + N) - 1).
Proof.
  intros Hok. simpl. unfold NumSlots, NumSlots_quotient.
  rewrite (ComputeTupleSize_sum N sizes Hok), (HeaderSize_exact N sizes Hok).
  rewrite (denominator_exact N sizes Hok). auto.
Qed.

(** With at least one attribute the division in [NumSlots] is defined: its
    divisor [8 * tuple_size_ + num_attrs_] is not 0. *)
Lemma NumSlots_divisor_nonzero (N : Z) (sizes : list Z) :
  layout_input_ok N sizes -> 1 <= N ->
  u32 (u32 (8 * ComputeTupleSize sizes) + N) <> 0.
Proof.
  intros Hok HN1.
  rewrite (ComputeTupleSize_sum N sizes Hok), (denominator_exact N sizes Hok).
  destruct Hok as (HN & _ & Hall).
  pose proof (sumZ_bounds sizes Hall). lia.
Qed.

(** C4 (as amended): for well-formed constructor arguments with at least
    one attribute the calculator computes [tuple_size] as the sum of the
    attribute sizes and [header_size] as [3*4 + N*4 + 2 + N*1]; and when
    [8 * (BLOCK_SIZE - header_size)] fits in 32 bits and the quotient
    [floor(8 * (BLOCK_SIZE - header_size) / (8 * tuple_size + N))] is at
    least 1, it computes [slot_count] as that quotient minus 1. *)
Theorem layout_calculator_formulas (N : Z) (sizes : list Z) :
  layout_input_ok N sizes ->
  1 <= N ->
  let l := mkBlockLayout BLOCK_SIZE N sizes in
  tuple_size_ l = tuple_size_spec sizes
  /\ header_size_ l = header_size_spec N
  /\ (0 <= 8 * (BLOCK_SIZE - header_size_spec N) < 2 ^ 32 ->
      1 <= 8 * (BLOCK_SIZE - header_size_spec N)
           / (8 * tuple_size_spec sizes + N) ->
      num_slots_ l = slot_count_spec BLOCK_SIZE N sizes).
Proof.
  intros Hok HN1 l.
  destruct (mkBlockLayout_fields N sizes Hok) as (_ & _ & HT & HH & HS).
  fold l in HT, HH, HS.
  unfold slot_count_spec. unfold tuple_size_spec, header_size_spec.
  split; [exact HT|]. split; [lia|].
  intros Hnum HQ. rewrite HS.
  replace (3 * 4 + N * 4 + 2 + N * 1) with (14 + 5 * N) in * by lia.
  rewrite (u32_small (BLOCK_SIZE - _)) by lia.
  rewrite (u32_small (8 * _)) by lia.
  set (q := 8 * (BLOCK_SIZE - (14 + 5 * N)) / (8 * sumZ sizes + N)) in *.
  assert (q <= 8 * (BLOCK_SIZE - (14 + 5 * N))).
  { destruct Hok as (HN & _ & Hall).
    pose proof (sumZ_bounds sizes Hall).
    subst q. apply Z.div_le_upper_bound; [lia|].
    assert (1 <= 8 * sumZ sizes + N) by lia.
    generalize dependent (8 * sumZ sizes + N).
    generalize dependent (8 * (BLOCK_SIZE - (14 + 5 * N))).
    intros; nia. }
  rewrite u32_small; lia.
Qed.

(** The inequality behind the slot count: with a quotient of at least 1,
    [N] padded bitmaps and [slot_count] tuples fit after the header. *)
Lemma slots_fit (N : Z) (sizes : list Z) :
  layout_input_ok N sizes ->
  let l := mkBlockLayout BLOCK_SIZE N sizes in
  1 <= tuple_size_ l ->
  header_size_ l < BLOCK_SIZE ->
  1 <= NumSlots_quotient BLOCK_SIZE N (tuple_size_ l) (header_size_ l) ->
  header_size_ l
  + (N * BitmapSize (num_slots_ l) + num_slots_ l * tuple_size_ l)
  <= BLOCK_SIZE.
Proof.
  intros Hok l HT1 HHB HQ.
  assert (Hs : num_slots_ l
     = u32 (NumSlots_quotient BLOCK_SIZE N (tuple_size_ l) (header_size_ l) - 1))
    by reflexivity.
  destruct (mkBlockLayout_fields N sizes Hok) as (_ & _ & HT & HH & _).
  fold l in HT, HH.
  unfold NumSlots_quotient in *.
  rewrite HT, HH in *.
  rewrite (denominator_exact N sizes Hok) in *.
  destruct Hok as (HN & Hlt & Hall).
  pose proof (sumZ_bounds sizes Hall) as HTb.
  set (num := u32 (8 * u32 (BLOCK_SIZE - (14 + 5 * N)))) in *.
  set (den := 8 * sumZ sizes + N) in *.
  assert (Hnum : 0 <= num <= 8 * (BLOCK_SIZE - (14 + 5 * N))).
  { split; [apply u32_range|]. subst num.
    etransitivity; [apply u32_le; pose proof (u32_range (BLOCK_SIZE - (14 + 5 * N))); lia|].
    pose proof (u32_le (BLOCK_SIZE - (14 + 5 * N))). lia. }
  assert (Hnum32 : num < 2 ^ 32) by apply u32_range.
  assert (Hden : 0 < den) by (subst den; lia).
  pose proof (Z.mul_div_le num den Hden) as Hqd.
  assert (Hq32 : num / den <= num) by (apply Z.div_le_upper_bound; nia).
  rewrite u32_small in Hs by lia.
  pose proof (BitmapSize_bounds (num_slots_ l)) as HB.
  rewrite Hs in *.
  set (q := num / den) in *.
  assert (N * (8 * BitmapSize (q - 1)) <= N * (q - 1 + 7)) by nia.
  subst den. nia.
Qed.

(** C5 (as amended): for well-formed constructor arguments with
    [tuple_size >= 1] and [header_size < BLOCK_SIZE], if the quotient the
    calculator computes is at least 1 (room for one tuple more than the
    slots handed out), the header plus every column's byte-padded bitmap and
    value array fit in [BLOCK_SIZE] bytes:
    [header_size + sum_i (ceil(slot_count/8) + slot_count * attribute_sizes[i])
     <= BLOCK_SIZE]. *)
Theorem layout_fits_in_block (N : Z) (sizes : list Z) :
  layout_input_ok N sizes ->
  let l := mkBlockLayout BLOCK_SIZE N sizes in
  1 <= tuple_size_ l ->
  header_size_ l < BLOCK_SIZE ->
  1 <= NumSlots_quotient BLOCK_SIZE N (tuple_size_ l) (header_size_ l) ->
  block_bytes l <= BLOCK_SIZE.
Proof.
  intros Hok l HT1 HHB HQ.
  pose proof (slots_fit N sizes Hok HT1 HHB HQ) as Hfit. fold l in Hfit.
  destruct (mkBlockLayout_fields N sizes Hok) as (_ & _ & HT & _).
  fold l in HT. rewrite HT in Hfit.
  unfold block_bytes. change (attr_sizes_ l) with sizes.
  rewrite sumZ_mini_blocks.
  destruct Hok as (HN & _). rewrite <- HN. exact Hfit.
Qed.

End LayoutTheorems.

(** C4, counterexample: with 1 MB blocks and 4032 attributes of 255 bytes
    the calculator returns 4294967295 slots, where the formula over the
    integers gives -1. *)
Lemma layout_calculator_formulas_counterexample :
  layout_input_ok 4032 wide_attr_sizes
  /\ num_slots_ (mkBlockLayout 1048576 4032 wide_attr_sizes) = 4294967295
  /\ slot_count_spec 1048576 4032 wide_attr_sizes = -1.
Proof.
  split; [exact wide_attr_sizes_ok|]. split; vm_compute; reflexivity.
Qed.

Lemma layout_calculator_formulas_witness :
  layout_input_ok 2 [8; 4]
  /\ num_slots_ (mkBlockLayout 1048576 2 [8; 4]) = 85595.
Proof.
  assert (Hok : layout_input_ok 2 [8; 4]).
  { unfold layout_input_ok, attr_size_ok. simpl.
    repeat split; try lia. repeat constructor; lia. }
  split; [exact Hok|].
  destruct (layout_calculator_formulas 1048576 2 [8; 4] Hok ltac:(lia))
    as (_ & _ & H).
  rewrite H; [reflexivity | unfold header_size_spec; lia | vm_compute; discriminate].
Defined.

(** C5, counterexample: the same layout satisfies every hypothesis of the
    claim, and its geometry is far larger than a 1 MB block. *)
Lemma layout_fits_in_block_counterexample :
  layout_input_ok 4032 wide_attr_sizes
  /\ 1 <= tuple_size_ (mkBlockLayout 1048576 4032 wide_attr_sizes)
  /\ header_size_ (mkBlockLayout 1048576 4032 wide_attr_sizes) < 1048576
  /\ ~ block_bytes (mkBlockLayout 1048576 4032 wide_attr_sizes) <= 1048576.
Proof.
  split; [exact wide_attr_sizes_ok|].
  split; [vm_compute; discriminate|].
  split; [vm_compute; reflexivity|].
  vm_compute. intros H. apply H. reflexivity.
Qed.

Lemma layout_fits_in_block_witness :
  block_bytes (mkBlockLayout 1048576 2 [8; 4]) <= 1048576.
Proof.
  apply (layout_fits_in_block 1048576 2 [8; 4]).
  - unfold layout_input_ok, attr_size_ok. simpl.
    repeat split; try lia. repeat constructor; lia.
  - vm_compute. discriminate.
  - vm_compute. reflexivity.
  - vm_compute. discriminate.
Defined.

(** ** Raw memory: lemmas *)

Lemma u8_range x : 0 <= u8 x < 2 ^ 8.
Proof. unfold u8. apply Z.mod_pos_bound. lia. Qed.

Lemma store8_same m a v : store8 m a v a = u8 v.
Proof. unfold store8. now rewrite Z.eqb_refl. Qed.

Lemma store8_other m a v x : x <> a -> store8 m a v x = m x.
Proof.
  intros H. unfold store8. destruct (Z.eqb_spec x a); [contradiction|reflexivity].
Qed.

Lemma store16_other m a v x : x < a \/ a + 2 <= x -> store16 m a v x = m x.
Proof. intros H. unfold store16. rewrite !store8_other by lia. reflexivity. Qed.

Lemma store32_other m a v x : x < a \/ a + 4 <= x -> store32 m a v x = m x.
Proof. intros H. unfold store32. rewrite !store8_other by lia. reflexivity. Qed.

Lemma load32_store32 m a v : 0 <= v < 2 ^ 32 -> load32 (store32 m a v) a = v.
Proof.
  intros Hv. unfold load32, store32.
  repeat (rewrite store8_same || rewrite store8_other by lia).
  unfold u8.
  pose proof (Z.div_mod v (2 ^ 8) ltac:(lia)).
  pose proof (Z.div_mod (v / 2 ^ 8) (2 ^ 8) ltac:(lia)).
  pose proof (Z.div_mod (v / 2 ^ 16) (2 ^ 8) ltac:(lia)).
  replace (v / 2 ^ 8 / 2 ^ 8) with (v / 2 ^ 16) in * by (rewrite Z.div_div by lia; reflexivity).
  replace (v / 2 ^ 16 / 2 ^ 8) with (v / 2 ^ 24) in * by (rewrite Z.div_div by lia; reflexivity).
  assert (0 <= v / 2 ^ 24 < 2 ^ 8).
  { split; [apply Z.div_pos; lia | apply Z.div_lt_upper_bound; lia]. }
  rewrite (Z.mod_small (v / 2 ^ 24)) by lia.
  lia.
Qed.

Lemma load32_frame (m m' : memory) a :
  (forall x, a <= x < a + 4 -> m' x = m x) -> load32 m' a = load32 m a.
Proof. intros H. unfold load32. rewrite !H by lia. reflexivity. Qed.

(** ** RawConcurrentBitmap: lemmas *)

Lemma testbit_1 (k : Z) : Z.testbit 1 k = (k =? 0).
Proof. destruct k as [|p|p]; reflexivity. Qed.

Lemma testbit_flip_byte (old j k : Z) :
  0 <= j < 8 -> 0 <= k < 8 ->
  Z.testbit (u8 (Z.lxor old (Z.shiftl 1 j))) k
  = if k =? j then negb (Z.testbit old k) else Z.testbit old k.
Proof.
  intros Hj Hk. unfold u8.
  rewrite Z.mod_pow2_bits_low by lia.
  rewrite Z.lxor_spec, Z.shiftl_spec by lia.
  rewrite testbit_1.
  destruct (Z.eqb_spec k j) as [->|Hne].
  - rewrite Z.sub_diag. simpl. now rewrite xorb_true_r.
  - destruct (Z.eqb_spec (k - j) 0); [lia|]. now rewrite xorb_false_r.
Qed.

Module BitmapFacts.
Import RawConcurrentBitmap.

Lemma Flip_miss m bitmap pos e :
  Test m bitmap pos <> e -> Flip m bitmap pos e = (m, false).
Proof.
  unfold Test, Flip. intros H.
  destruct (Bool.eqb _ e) eqn:E; [|reflexivity].
  apply eqb_prop in E. contradiction.
Qed.

Lemma Flip_hit m bitmap pos e :
  Test m bitmap pos = e ->
  Flip m bitmap pos e
  = (store8 m (bitmap + pos / 8)
       (Z.lxor (m (bitmap + pos / 8)) (Z.shiftl 1 (pos mod 8))), true).
Proof.
  unfold Test, Flip. intros H. rewrite H, eqb_reflx. reflexivity.
Qed.

(** A flip writes the byte of the bit and no other. *)
Lemma Flip_frame m bitmap pos e x :
  x <> bitmap + pos / 8 -> fst (Flip m bitmap pos e) x = m x.
Proof.
  intros H. unfold Flip.
  destruct (Bool.eqb _ e); simpl; [now apply store8_other|reflexivity].
Qed.

Lemma Flip_snd m bitmap pos e :
  snd (Flip m bitmap pos e) = Bool.eqb (Test m bitmap pos) e.
Proof. unfold Flip, Test. now destruct (Bool.eqb _ e). Qed.

(** After [Flip pos e] the bit at [pos] is [negb e], whether it flipped or
    not. *)
Lemma Test_Flip_same m bitmap pos e :
  Test (fst (Flip m bitmap pos e)) bitmap pos = negb e.
Proof.
  pose proof (Z.mod_pos_bound pos 8 ltac:(lia)) as Hj.
  unfold Flip. destruct (Bool.eqb _ e) eqn:E; simpl.
  - apply eqb_prop in E. unfold Test. rewrite store8_same.
    rewrite testbit_flip_byte, Z.eqb_refl by lia. now rewrite E.
  - apply eqb_false_iff in E. unfold Test.
    destruct (Z.testbit _ _), e; simpl; congruence.
Qed.

(** Every other bit of the same bitmap keeps its value. *)
Lemma Test_Flip_other m bitmap pos e pos' :
  pos' <> pos ->
  Test (fst (Flip m bitmap pos e)) bitmap pos' = Test m bitmap pos'.
Proof.
  intros Hne.
  pose proof (Z.mod_pos_bound pos 8 ltac:(lia)) as Hj.
  pose proof (Z.mod_pos_bound pos' 8 ltac:(lia)) as Hj'.
  unfold Flip. destruct (Bool.eqb _ e); simpl; [|reflexivity].
  unfold Test.
  destruct (Z.eq_dec (pos' / 8) (pos / 8)) as [Hq|Hq].
  - rewrite Hq, store8_same, testbit_flip_byte by lia.
    destruct (Z.eqb_spec (pos' mod 8) (pos mod 8)) as [Hr|Hr]; [|reflexivity].
    exfalso. apply Hne.
    rewrite (Z.div_mod pos' 8), (Z.div_mod pos 8) by lia. congruence.
  - rewrite store8_other by lia. reflexivity.
Qed.

(** A bit of another bitmap whose bytes are elsewhere keeps its value. *)
Lemma Test_Flip_frame m bitmap pos e bitmap' pos' :
  bitmap' + pos' / 8 <> bitmap + pos / 8 ->
  Test (fst (Flip m bitmap pos e)) bitmap' pos' = Test m bitmap' pos'.
Proof. intros H. unfold Test at 1. rewrite Flip_frame by assumption. reflexivity. Qed.

End BitmapFacts.

(** ** Column offsets *)

Lemma sumZ_cons (x : Z) (l : list Z) : sumZ (x :: l) = x + sumZ l.
Proof. reflexivity. Qed.

Lemma sumZ_app (l1 l2 : list Z) : sumZ (l1 ++ l2) = sumZ l1 + sumZ l2.
Proof. induction l1 as [|x l1 IH]; simpl; lia. Qed.

Lemma firstn_snoc_nth (l : list Z) (k : nat) (d : Z) :
  (k < length l)%nat -> firstn (S k) l = firstn k l ++ [nth k l d].
Proof.
  revert k. induction l as [|x l IH]; intros k Hk; simpl in Hk; [lia|].
  destruct k as [|k]; [reflexivity|].
  change (firstn (S (S k)) (x :: l)) with (x :: firstn (S k) l).
  rewrite IH by lia. reflexivity.
Qed.

Lemma sumZ_map_nonneg (f : Z -> Z) (l : list Z) :
  (forall x, In x l -> 0 <= f x) -> 0 <= sumZ (map f l).
Proof.
  induction l as [|x l IH]; intros H; simpl; [lia|].
  pose proof (H x (or_introl eq_refl)).
  assert (0 <= sumZ (map f l)) by (apply IH; intros; apply H; now right).
  lia.
Qed.

Lemma sumZ_firstn_le (f : Z -> Z) (l : list Z) (k : nat) :
  (forall x, In x l -> 0 <= f x) ->
  sumZ (map f (firstn k l)) <= sumZ (map f l).
Proof.
  intros H. rewrite <- (firstn_skipn k l) at 2.
  rewrite map_app, sumZ_app.
  assert (0 <= sumZ (map f (skipn k l))); [|lia].
  apply sumZ_map_nonneg. intros x Hx. apply H.
  rewrite <- (firstn_skipn k l). apply in_or_app. now right.
Qed.

Lemma mini_block_bytes_nonneg (S size : Z) :
  0 <= S -> 0 <= size -> 0 <= mini_block_bytes S size.
Proof.
  intros HS Hs. unfold mini_block_bytes.
  pose proof (BitmapSize_bounds S). nia.
Qed.

Section ValidLayout.

Variable BLOCK_SIZE N : Z.
Variable sizes : list Z.
Hypothesis Hvalid : layout_valid BLOCK_SIZE N sizes.

Local Abbreviation l := (mkBlockLayout BLOCK_SIZE N sizes).

Lemma valid_input : layout_input_ok N sizes.
Proof. exact (proj1 Hvalid). Qed.

Lemma valid_num_attrs : num_attrs_ l = N /\ N = Z.of_nat (length sizes) /\ 1 <= N < 2 ^ 16.
Proof.
  destruct Hvalid as (Hok & HB & HH & HQ).
  pose proof Hok as (HN & Hlt & Hall).
  repeat split; auto.
  unfold NumSlots_quotient in HQ.
  rewrite (ComputeTupleSize_sum N sizes Hok), (denominator_exact N sizes Hok) in HQ.
  pose proof (sumZ_bounds sizes Hall).
  destruct (Z.eq_dec N 0) as [E|E]; [|lia].
  replace (8 * sumZ sizes + N) with 0 in HQ by lia.
  rewrite Z.div_0_r in HQ. lia.
Qed.

Lemma valid_sizes : attr_sizes_ l = sizes /\ Forall attr_size_ok sizes.
Proof. split; [reflexivity|]. exact (proj2 (proj2 valid_input)). Qed.

Lemma valid_header_size : header_size_ l = 14 + 5 * N.
Proof. exact (HeaderSize_exact N sizes valid_input). Qed.

Lemma valid_num_slots : 0 <= num_slots_ l < 2 ^ 32.
Proof. apply u32_range. Qed.

Lemma valid_block_size : BLOCK_SIZE < 2 ^ 32.
Proof. exact (proj1 (proj2 Hvalid)). Qed.

Lemma valid_block_bytes : block_bytes l <= BLOCK_SIZE.
Proof.
  destruct Hvalid as (Hok & HB & HH & HQ).
  pose proof valid_num_attrs as (_ & HN & HN1).
  pose proof (sumZ_bounds sizes (proj2 (proj2 Hok))) as Hs.
  assert (HT1 : 1 <= tuple_size_ l).
  { change (tuple_size_ l) with (ComputeTupleSize sizes).
    rewrite (ComputeTupleSize_sum N sizes Hok). lia. }
  pose proof (slots_fit BLOCK_SIZE N sizes Hok HT1 HH HQ) as Hfit.
  change (tuple_size_ l) with (ComputeTupleSize sizes) in Hfit.
  rewrite (ComputeTupleSize_sum N sizes Hok) in Hfit.
  unfold block_bytes. change (attr_sizes_ l) with sizes.
  rewrite sumZ_mini_blocks, <- HN. exact Hfit.
Qed.

Lemma valid_mini_nonneg x : In x sizes -> 0 <= mini_block_bytes (num_slots_ l) x.
Proof.
  intros Hx. pose proof valid_sizes as (_ & Hall).
  rewrite Forall_forall in Hall. specialize (Hall x Hx). unfold attr_size_ok in Hall.
  apply mini_block_bytes_nonneg; [apply valid_num_slots | lia].
Qed.

Lemma column_offset_of_0 : column_offset_of l 0 = header_size_ l.
Proof. unfold column_offset_of. simpl. lia. Qed.

(** Consecutive columns are back to back. *)
Lemma column_offset_of_succ (c : Z) :
  0 <= c < N ->
  column_offset_of l (c + 1)
  = column_offset_of l c
    + mini_block_bytes (num_slots_ l) (nth (Z.to_nat c) sizes 0).
Proof.
  intros Hc. pose proof valid_num_attrs as (_ & HN & _).
  unfold column_offset_of. change (attr_sizes_ l) with sizes.
  replace (Z.to_nat (c + 1)) with (S (Z.to_nat c)) by lia.
  rewrite (firstn_snoc_nth sizes (Z.to_nat c) 0) by lia.
  rewrite map_app, sumZ_app. simpl. lia.
Qed.

(** Every mini-block lies between the header and the end of the block. *)
Lemma column_offset_of_bounds (c : Z) :
  0 <= c < N ->
  header_size_ l <= column_offset_of l c
  /\ column_offset_of l c
     + mini_block_bytes (num_slots_ l) (nth (Z.to_nat c) sizes 0)
     <= BLOCK_SIZE.
Proof.
  intros Hc. split.
  - unfold column_offset_of.
    assert (0 <= sumZ (map (mini_block_bytes (num_slots_ l))
                         (firstn (Z.to_nat c) (attr_sizes_ l)))); [|lia].
    apply sumZ_map_nonneg. intros x Hx. apply valid_mini_nonneg.
    change (attr_sizes_ l) with sizes in Hx.
    rewrite <- (firstn_skipn (Z.to_nat c) sizes). apply in_or_app. now left.
  - rewrite <- column_offset_of_succ by assumption.
    pose proof valid_block_bytes as Hb. unfold block_bytes in Hb.
    unfold column_offset_of.
    pose proof (sumZ_firstn_le (mini_block_bytes (num_slots_ l)) (attr_sizes_ l)
                  (Z.to_nat (c + 1)) valid_mini_nonneg).
    lia.
Qed.

Lemma valid_size_nth (c : Z) :
  0 <= c < N -> attr_size_ok (nth (Z.to_nat c) sizes 0).
Proof.
  intros Hc. pose proof valid_num_attrs as (_ & HN & _).
  pose proof valid_sizes as (_ & Hall). rewrite Forall_forall in Hall.
  apply Hall, nth_In. lia.
Qed.

(** Inside a column the offset of a slot does not wrap on 32 bits. *)
Lemma attr_offset_in_column_exact (c pos : Z) :
  0 <= c < N -> 0 <= pos <= num_slots_ l ->
  TupleAccessStrategy.attr_offset_in_column l c pos
  = nth (Z.to_nat c) sizes 0 * pos.
Proof.
  intros Hc Hpos. unfold TupleAccessStrategy.attr_offset_in_column.
  change (attr_sizes_ l) with sizes.
  pose proof (valid_size_nth c Hc) as Hs. unfold attr_size_ok in Hs.
  pose proof (column_offset_of_bounds c Hc) as (H1 & H2).
  pose proof valid_header_size. pose proof valid_block_size.
  pose proof (BitmapSize_bounds (num_slots_ l)).
  unfold mini_block_bytes in H2.
  apply u32_small. nia.
Qed.

End ValidLayout.

(** ** InitializeRawBlock: lemmas *)

(** Resolve the addresses of the header fields to offsets from the block. *)
Ltac header_addresses :=
  unfold Block.attr_sizes_field, Block.num_attrs_field, Block.AttrOffets,
    Block.NumSlots, Block.varlen_contents_ in *.

Lemma write_attr_sizes_frame (sizes : list Z) (m : memory) (p x : Z) :
  x < p \/ p + Z.of_nat (length sizes) <= x ->
  write_attr_sizes m p sizes x = m x.
Proof.
  revert m p. induction sizes as [|s rest IH]; intros m p Hx; simpl; [reflexivity|].
  simpl length in Hx. rewrite Nat2Z.inj_succ in Hx.
  rewrite IH by lia. apply store8_other. lia.
Qed.

Lemma write_attr_sizes_read (sizes : list Z) (m : memory) (p : Z) (k : nat) :
  Forall attr_size_ok sizes -> (k < length sizes)%nat ->
  write_attr_sizes m p sizes (p + Z.of_nat k) = nth k sizes 0.
Proof.
  intros Hall. revert m p k.
  induction Hall as [|s rest Hs _ IH]; intros m p k Hk; simpl in Hk; [lia|].
  simpl write_attr_sizes. destruct k as [|k].
  - rewrite write_attr_sizes_frame by lia.
    rewrite Z.add_0_r, store8_same. unfold u8, attr_size_ok in *.
    simpl nth. apply Z.mod_small. lia.
  - replace (p + Z.of_nat (S k)) with (p + 1 + Z.of_nat k) by lia.
    rewrite IH by lia. reflexivity.
Qed.

Lemma write_attr_offsets_frame (sizes : list Z) (m : memory)
  (block S i off x : Z) :
  x < Block.AttrOffets block + 4 * i
  \/ Block.AttrOffets block + 4 * (i + Z.of_nat (length sizes)) <= x ->
  write_attr_offsets m block S i off sizes x = m x.
Proof.
  revert m i off.
  induction sizes as [|s rest IH]; intros m i off Hx; cbn [write_attr_offsets];
    [reflexivity|].
  cbn [length] in Hx. rewrite Nat2Z.inj_succ in Hx.
  rewrite IH by lia. apply store32_other. lia.
Qed.

Lemma write_attr_offsets_load (sizes : list Z) (m : memory)
  (block S i off : Z) (k : nat) :
  (forall x, In x sizes -> 0 <= mini_block_bytes S x) ->
  0 <= off ->
  off + sumZ (map (mini_block_bytes S) sizes) < 2 ^ 32 ->
  (k < length sizes)%nat ->
  load32 (write_attr_offsets m block S i off sizes)
         (Block.AttrOffets block + 4 * (i + Z.of_nat k))
  = off + sumZ (map (mini_block_bytes S) (firstn k sizes)).
Proof.
  revert m i off k.
  induction sizes as [|s rest IH]; intros m i off k Hpos Hoff Hsum Hk;
    cbn [length] in Hk; [lia|].
  cbn [map] in Hsum. rewrite sumZ_cons in Hsum.
  assert (Hs : 0 <= mini_block_bytes S s) by (apply Hpos; now left).
  assert (Hrest : 0 <= sumZ (map (mini_block_bytes S) rest)).
  { apply sumZ_map_nonneg. intros x Hx. apply Hpos. now right. }
  cbn [write_attr_offsets]. destruct k as [|k].
  - change (sumZ (map (mini_block_bytes S) (firstn 0 (s :: rest)))) with 0.
    change (Z.of_nat 0) with 0. rewrite !Z.add_0_r.
    rewrite (load32_frame (store32 m (Block.AttrOffets block + 4 * i) off)).
    + rewrite load32_store32; lia.
    + intros x Hx. apply write_attr_offsets_frame. lia.
  - replace (i + Z.of_nat (Datatypes.S k)) with (i + 1 + Z.of_nat k) by lia.
    rewrite IH; try lia.
    + rewrite u32_small by lia. cbn [firstn map]. rewrite sumZ_cons. lia.
    + intros x Hx. apply Hpos. now right.
    + apply u32_range.
    + rewrite u32_small by lia. lia.
Qed.

Section Initialization.

Variable BLOCK_SIZE N : Z.
Variable sizes : list Z.
Hypothesis Hvalid : layout_valid BLOCK_SIZE N sizes.

Local Abbreviation l := (mkBlockLayout BLOCK_SIZE N sizes).

(** Initialization writes the header and nothing else. *)
Lemma InitializeRawBlock_frame (m : memory) (raw id x : Z) :
  x < raw \/ raw + header_size_ l <= x ->
  InitializeRawBlock m raw l id x = m x.
Proof.
  intros Hx.
  pose proof (valid_num_attrs _ _ _ Hvalid) as (_ & HN & HN1).
  rewrite (valid_header_size _ _ _ Hvalid) in Hx.
  unfold InitializeRawBlock.
  change (attr_sizes_ l) with sizes. change (num_attrs_ l) with N.
  header_addresses.
  change (num_attrs_ l) with N.
  rewrite write_attr_sizes_frame by lia.
  rewrite store16_other by lia.
  rewrite write_attr_offsets_frame by (header_addresses; lia).
  rewrite !store32_other by lia. reflexivity.
Qed.

(** Initialization leaves the offset of every column in the header. *)
Lemma InitializeRawBlock_header_ok (m : memory) (raw id : Z) :
  header_ok l (InitializeRawBlock m raw l id) raw.
Proof.
  intros c Hc. change (num_attrs_ l) with N in Hc.
  pose proof (valid_num_attrs _ _ _ Hvalid) as (_ & HN & HN1).
  pose proof (valid_block_bytes _ _ _ Hvalid) as Hbytes.
  pose proof (valid_block_size _ _ _ Hvalid) as HB.
  pose proof (valid_header_size _ _ _ Hvalid) as HH.
  unfold InitializeRawBlock.
  change (attr_sizes_ l) with sizes. change (num_attrs_ l) with N.
  set (m3 := store32 (store32 m raw id) _ _).
  set (m4 := write_attr_offsets m3 raw _ _ _ _).
  rewrite (load32_frame m4).
  - subst m4. replace c with (0 + Z.of_nat (Z.to_nat c)) at 1 by lia.
    rewrite write_attr_offsets_load; try lia.
    + reflexivity.
    + apply (valid_mini_nonneg _ _ _ Hvalid).
    + unfold block_bytes in Hbytes. change (attr_sizes_ l) with sizes in Hbytes. lia.
  - intros x Hx.
    header_addresses.
    change (num_attrs_ l) with N.
    rewrite write_attr_sizes_frame by lia.
    apply store16_other. lia.
Qed.

(** Initialization stores the attribute count where the header comment of
    [Block] places it, right after the offsets. *)
Lemma InitializeRawBlock_num_attrs (m : memory) (raw id : Z) :
  load16 (InitializeRawBlock m raw l id) (Block.num_attrs_field raw l) = N.
Proof.
  pose proof (valid_num_attrs _ _ _ Hvalid) as (_ & HN & HN1).
  unfold InitializeRawBlock, load16.
  change (attr_sizes_ l) with sizes. change (num_attrs_ l) with N.
  unfold Block.attr_sizes_field.
  rewrite !write_attr_sizes_frame by lia.
  unfold store16.
  repeat (rewrite store8_same || rewrite store8_other by lia).
  unfold u8.
  pose proof (Z.div_mod N (2 ^ 8) ltac:(lia)).
  assert (0 <= N / 2 ^ 8 < 2 ^ 8).
  { split; [apply Z.div_pos; lia | apply Z.div_lt_upper_bound; lia]. }
  rewrite (Z.mod_small (N / 2 ^ 8)) by lia. lia.
Qed.

(** ... and the attribute sizes right after the count, one byte each. *)
Lemma InitializeRawBlock_attr_sizes (m : memory) (raw id c : Z) :
  0 <= c < N ->
  InitializeRawBlock m raw l id (Block.attr_sizes_field raw l + c)
  = nth (Z.to_nat c) sizes 0.
Proof.
  intros Hc.
  pose proof (valid_num_attrs _ _ _ Hvalid) as (_ & HN & HN1).
  pose proof (valid_sizes _ _ _ Hvalid) as (_ & Hall).
  unfold InitializeRawBlock. change (attr_sizes_ l) with sizes.
  replace c with (Z.of_nat (Z.to_nat c)) at 1 by lia.
  apply write_attr_sizes_read; [assumption | lia].
Qed.

(** A zero-filled block still has every presence bit clear once
    initialized. *)
Lemma InitializeRawBlock_slots_free (m : memory) (raw id : Z) :
  zero_filled m raw BLOCK_SIZE ->
  forall c pos, 0 <= c < N -> 0 <= pos < num_slots_ l ->
    RawConcurrentBitmap.Test (InitializeRawBlock m raw l id)
      (TupleAccessStrategy.ColumnNullBitmap (InitializeRawBlock m raw l id) raw c)
      pos = false.
Proof.
  intros Hzero c pos Hc Hpos.
  pose proof (InitializeRawBlock_header_ok m raw id c Hc) as Hoff.
  pose proof (column_offset_of_bounds _ _ _ Hvalid c Hc) as (Hlo & Hhi).
  pose proof (valid_size_nth _ _ _ Hvalid c Hc) as Hs. unfold attr_size_ok in Hs.
  unfold TupleAccessStrategy.ColumnNullBitmap, MiniBlock.NullBitmap, Block.Column.
  rewrite Hoff. unfold RawConcurrentBitmap.Test.
  pose proof (BitmapSize_bounds (num_slots_ l)) as HB.
  unfold mini_block_bytes in Hhi.
  assert (0 <= pos / 8 < BitmapSize (num_slots_ l)).
  { split; [apply Z.div_pos; lia|]. apply Z.div_lt_upper_bound; lia. }
  pose proof (valid_header_size _ _ _ Hvalid) as HH.
  pose proof (valid_num_attrs _ _ _ Hvalid) as (_ & _ & HN1).
  assert (0 <= num_slots_ l * nth (Z.to_nat c) sizes 0) by nia.
  rewrite InitializeRawBlock_frame by lia.
  rewrite Hzero by lia.
  apply Z.testbit_0_l.
Qed.

End Initialization.

(** ** Blocks under a valid layout *)

Section BlockTheorems.

Variable BLOCK_SIZE N : Z.
Variable sizes : list Z.
Hypothesis Hvalid : layout_valid BLOCK_SIZE N sizes.

Local Abbreviation l := (mkBlockLayout BLOCK_SIZE N sizes).

Import RawConcurrentBitmap TupleAccessStrategy.

Lemma ColumnNullBitmap_header_ok (m : memory) (block c : Z) :
  header_ok l m block -> 0 <= c < N ->
  ColumnNullBitmap m block c = block + column_offset_of l c.
Proof.
  intros Hh Hc. unfold ColumnNullBitmap, MiniBlock.NullBitmap, Block.Column.
  now rewrite Hh.
Qed.

Lemma AccessForceNotNull_eq (layout : BlockLayout) (m : memory) (block c s : Z) :
  AccessForceNotNull layout m block c s
  = (fst (Flip m (ColumnNullBitmap m block c) s false),
     ColumnStart layout (fst (Flip m (ColumnNullBitmap m block c) s false)) block c
     + attr_offset_in_column layout c s).
Proof.
  unfold AccessForceNotNull.
  destruct (Flip m (ColumnNullBitmap m block c) s false); reflexivity.
Qed.

(** The bytes of a null bitmap are past the header: flipping a bit leaves
    the offsets in the header as they are. *)
Lemma Flip_header_ok (m : memory) (block c pos : Z) (e : bool) :
  header_ok l m block -> 0 <= c < N -> 0 <= pos ->
  header_ok l (fst (Flip m (ColumnNullBitmap m block c) pos e)) block.
Proof.
  intros Hh Hc Hpos c' Hc'. change (num_attrs_ l) with N in Hc'.
  rewrite <- (Hh c' Hc'). apply load32_frame. intros x Hx.
  apply BitmapFacts.Flip_frame.
  rewrite (ColumnNullBitmap_header_ok m block c Hh Hc).
  pose proof (column_offset_of_bounds _ _ _ Hvalid c Hc) as (Hlo & _).
  rewrite (valid_header_size _ _ _ Hvalid) in Hlo.
  assert (0 <= pos / 8) by (apply Z.div_pos; lia).
  header_addresses. lia.
Qed.

(** C6: in a block initialized for a valid layout the mini-blocks are back
    to back in attribute order.  The first one starts right after the header; the
    offset of every column that has a successor, plus [ceil(slot_count / 8)]
    bitmap bytes and [slot_count * attribute_sizes[c]] value bytes, is the
    offset of that successor, and the last one ends inside the block; the
    value array of every column starts [ceil(slot_count / 8)] bytes past its
    null bitmap. *)
Theorem mini_blocks_contiguous (m : memory) (raw id : Z) :
  let m' := InitializeRawBlock m raw l id in
  let attribute_offsets c := load32 m' (Block.AttrOffets raw + 4 * c) in
  attribute_offsets 0 = header_size_ l
  /\ (forall c, 0 <= c -> c + 1 < N ->
        attribute_offsets (c + 1)
        = attribute_offsets c + BitmapSize (num_slots_ l)
          + num_slots_ l * nth (Z.to_nat c) sizes 0)
  /\ attribute_offsets (N - 1) + BitmapSize (num_slots_ l)
     + num_slots_ l * nth (Z.to_nat (N - 1)) sizes 0 <= BLOCK_SIZE
  /\ (forall c, 0 <= c < N ->
        ColumnStart l m' raw c
        = ColumnNullBitmap m' raw c + BitmapSize (num_slots_ l)).
Proof.
  intros m' attribute_offsets.
  pose proof (InitializeRawBlock_header_ok _ _ _ Hvalid m raw id) as Hh.
  fold m' in Hh.
  pose proof (valid_num_attrs _ _ _ Hvalid) as (_ & _ & HN1).
  assert (Hoff : forall c, 0 <= c < N -> attribute_offsets c = column_offset_of l c).
  { intros c Hc. apply Hh. exact Hc. }
  split; [|split; [|split]].
  - rewrite Hoff by lia. apply column_offset_of_0.
  - intros c Hc0 Hc1. rewrite !Hoff by lia.
    rewrite (column_offset_of_succ _ _ _ Hvalid) by lia.
    unfold mini_block_bytes. lia.
  - rewrite Hoff by lia.
    pose proof (column_offset_of_bounds _ _ _ Hvalid (N - 1) ltac:(lia)) as (_ & Hhi).
    unfold mini_block_bytes in Hhi. lia.
  - intros c Hc. reflexivity.
Qed.

(** C7: right after the initialization of a zero-filled block for a valid
    layout, reading any slot in range of any column with the null check
    gives no pointer. *)
Theorem fresh_block_reads_null (m : memory) (raw id c pos : Z) :
  zero_filled m raw BLOCK_SIZE ->
  0 <= c < N -> 0 <= pos < num_slots_ l ->
  AccessWithNullCheck l (InitializeRawBlock m raw l id) raw c pos = nullptr.
Proof.
  intros Hzero Hc Hpos. unfold AccessWithNullCheck.
  rewrite (InitializeRawBlock_slots_free _ _ _ Hvalid m raw id Hzero c pos Hc Hpos).
  reflexivity.
Qed.

(** C2: for a valid layout, on a block whose header holds the column
    offsets, a forced not-null write of slot [s] of column [c] followed at once by a
    null-checked read of the same slot returns the address
    [column_start(c) + s * attribute_sizes[c]], which is not the null
    pointer; it is the address the write returned. *)
Theorem force_not_null_then_read (m : memory) (block c s : Z) :
  header_ok l m block -> 0 < block ->
  0 <= c < N -> 0 <= s < num_slots_ l ->
  let written := AccessForceNotNull l m block c s in
  let p := AccessWithNullCheck l (fst written) block c s in
  p = ColumnStart l (fst written) block c + s * nth (Z.to_nat c) sizes 0
  /\ p <> nullptr
  /\ p = snd written.
Proof.
  intros Hh Hblock Hc Hs. cbv zeta.
  pose proof (Flip_header_ok m block c s false Hh Hc (proj1 Hs)) as Hh'.
  pose proof (BitmapFacts.Test_Flip_same m (ColumnNullBitmap m block c) s false) as Hbit.
  rewrite AccessForceNotNull_eq. cbn [fst snd].
  set (m' := fst (Flip m (ColumnNullBitmap m block c) s false)) in *.
  assert (Hb : ColumnNullBitmap m' block c = ColumnNullBitmap m block c).
  { rewrite !ColumnNullBitmap_header_ok by assumption. reflexivity. }
  assert (Hp : AccessWithNullCheck l m' block c s
               = ColumnStart l m' block c + attr_offset_in_column l c s).
  { unfold AccessWithNullCheck. rewrite Hb, Hbit. reflexivity. }
  rewrite Hp.
  rewrite (attr_offset_in_column_exact _ _ _ Hvalid) by lia.
  split; [lia|]. split; [|reflexivity].
  unfold ColumnStart, MiniBlock.ColumnStart, nullptr.
  change (Block.Column m' block c) with (ColumnNullBitmap m' block c).
  rewrite (ColumnNullBitmap_header_ok m' block c Hh' Hc).
  pose proof (column_offset_of_bounds _ _ _ Hvalid c Hc) as (Hlo & _).
  rewrite (valid_header_size _ _ _ Hvalid) in Hlo.
  pose proof (BitmapSize_bounds (num_slots_ l)).
  pose proof (valid_size_nth _ _ _ Hvalid c Hc) as Hsz. unfold attr_size_ok in Hsz.
  nia.
Qed.

(** C3: for a valid layout, on a block whose header holds the column
    offsets, setting slot [s] of column [c] null and reading it at once with the null check gives no
    pointer. *)
Theorem set_null_then_read (m : memory) (block c s : Z) :
  header_ok l m block ->
  0 <= c < N -> 0 <= s < num_slots_ l ->
  AccessWithNullCheck l (SetNull m block c s) block c s = nullptr.
Proof.
  intros Hh Hc Hs. unfold SetNull, AccessWithNullCheck.
  pose proof (Flip_header_ok m block c s true Hh Hc (proj1 Hs)) as Hh'.
  set (m' := fst (Flip m (ColumnNullBitmap m block c) s true)) in *.
  assert (Hb : ColumnNullBitmap m' block c = ColumnNullBitmap m block c).
  { rewrite !ColumnNullBitmap_header_ok by assumption. reflexivity. }
  rewrite Hb. unfold m'.
  rewrite BitmapFacts.Test_Flip_same. reflexivity.
Qed.

End BlockTheorems.

(** ** Allocate *)

Section AllocateLoop.

Import RawConcurrentBitmap TupleAccessStrategy.

Lemma Flip_false_miss_mem (m : memory) (bitmap i : Z) (e : bool) :
  snd (Flip m bitmap i e) = false -> fst (Flip m bitmap i e) = m.
Proof. unfold Flip. destruct (Bool.eqb _ e); simpl; [discriminate|reflexivity]. Qed.

Lemma Allocate_loop_contract (remaining : nat) (bitmap i : Z) (m : memory)
  (offset : Z) :
  let '(ok, m', offset') := Allocate_loop remaining bitmap i m offset in
  (ok = true -> i <= offset' < i + Z.of_nat remaining)
  /\ (ok = false -> offset' = offset /\ m' = m).
Proof.
  revert i m. induction remaining as [|r IH]; intros i m; cbn [Allocate_loop].
  - split; [discriminate | auto].
  - pose proof (Flip_false_miss_mem m bitmap i false) as Hmiss.
    destruct (Flip m bitmap i false) as [m1 flipped]. cbn [fst snd] in Hmiss.
    destruct flipped.
    + split; [intros _; lia | discriminate].
    + rewrite (Hmiss eq_refl). specialize (IH (i + 1) m).
      destruct (Allocate_loop r bitmap (i + 1) m offset) as [[ok m'] offset'].
      destruct IH as [IH1 IH2]. split; [intros H; specialize (IH1 H); lia | exact IH2].
Qed.

(** The loop stops at the first clear bit at or after [i] and sets it. *)
Lemma Allocate_loop_first_clear (remaining : nat) (bitmap i k : Z)
  (m : memory) (offset : Z) :
  i <= k < i + Z.of_nat remaining ->
  (forall j, i <= j < k -> Test m bitmap j = true) ->
  Test m bitmap k = false ->
  Allocate_loop remaining bitmap i m offset
  = (true, fst (Flip m bitmap k false), k).
Proof.
  revert i. induction remaining as [|r IH]; intros i Hk Hset Hclear;
    cbn [Allocate_loop]; [lia|].
  destruct (Z.eq_dec i k) as [->|Hne].
  - rewrite (BitmapFacts.Flip_hit _ _ _ _ Hclear). reflexivity.
  - rewrite BitmapFacts.Flip_miss by (rewrite Hset by lia; discriminate).
    apply IH; [lia | intros j Hj; apply Hset; lia | assumption].
Qed.

(** With every bit from [i] on set, the loop runs out and changes nothing. *)
Lemma Allocate_loop_full (remaining : nat) (bitmap i : Z) (m : memory)
  (offset : Z) :
  (forall j, i <= j < i + Z.of_nat remaining -> Test m bitmap j = true) ->
  Allocate_loop remaining bitmap i m offset = (false, m, offset).
Proof.
  revert i. induction remaining as [|r IH]; intros i Hset; cbn [Allocate_loop];
    [reflexivity|].
  rewrite BitmapFacts.Flip_miss by (rewrite Hset by lia; discriminate).
  apply IH. intros j Hj. apply Hset. lia.
Qed.

End AllocateLoop.

(** C10: when [Allocate] returns true the offset it wrote is a slot index
    below [num_slots_]; when it returns false the offset variable holds what
    it held before the call and the memory of the block is the memory
    before the call. *)
Theorem Allocate_contract (layout : BlockLayout) (m : memory) (block offset : Z) :
  forall ok m' offset',
  TupleAccessStrategy.Allocate layout m block offset = (ok, m', offset') ->
  (ok = true -> 0 <= offset' < num_slots_ layout)
  /\ (ok = false -> offset' = offset /\ m' = m).
Proof.
  intros ok m' offset' H. unfold TupleAccessStrategy.Allocate in H.
  pose proof (Allocate_loop_contract (Z.to_nat (num_slots_ layout))
    (TupleAccessStrategy.ColumnNullBitmap m block PRIMARY_KEY_OFFSET) 0 m offset) as C.
  rewrite H in C. destruct C as [C1 C2]. split; [|exact C2].
  intros Hok. specialize (C1 Hok). lia.
Qed.

(** The successful calls among consecutive ones hold consecutive slots. *)
Lemma successful_offsets_run (S offset0 : Z) (n k : nat) :
  let rs := map (fun j => if Z.of_nat j <? S then (true, Z.of_nat j)
                          else (false, offset0)) (seq k n) in
  NoDup (successful_offsets rs)
  /\ (forall x, In x (successful_offsets rs) -> Z.of_nat k <= x < S)
  /\ Z.of_nat (length (successful_offsets rs))
     = Z.max 0 (Z.min (Z.of_nat (k + n)) S - Z.of_nat k).
Proof.
  revert k. induction n as [|n IH]; intros k; cbn zeta.
  - cbn [seq map successful_offsets filter length].
    split; [constructor|]. split; [intros x []|]. lia.
  - cbn [seq map]. specialize (IH (Datatypes.S k)). cbn zeta in IH.
    destruct IH as (Hnd & Hin & Hlen).
    unfold successful_offsets in *. cbn [filter].
    destruct (Z.ltb_spec (Z.of_nat k) S) as [Hlt|Hge]; cbn [fst map snd length].
    + split; [|split].
      * constructor; [|assumption]. intros H. apply Hin in H. lia.
      * intros x [<-|H]; [lia|]. apply Hin in H. lia.
      * rewrite Nat2Z.inj_succ, Hlen. lia.
    + split; [assumption|]. split.
      * intros x H. apply Hin in H. lia.
      * rewrite Hlen. lia.
Qed.

Section SequentialAllocate.

Variable BLOCK_SIZE N : Z.
Variable sizes : list Z.
Hypothesis Hvalid : layout_valid BLOCK_SIZE N sizes.

Local Abbreviation l := (mkBlockLayout BLOCK_SIZE N sizes).

Import RawConcurrentBitmap TupleAccessStrategy.

Lemma primary_key_bitmap (m : memory) (block : Z) :
  header_ok l m block ->
  ColumnNullBitmap m block PRIMARY_KEY_OFFSET = block + header_size_ l.
Proof.
  intros Hh. pose proof (valid_num_attrs _ _ _ Hvalid) as (_ & _ & HN1).
  unfold PRIMARY_KEY_OFFSET.
  rewrite (ColumnNullBitmap_header_ok _ _ _ m block 0 Hh) by lia.
  now rewrite column_offset_of_0.
Qed.

Lemma Allocate_claimed_below (k : Z) (m : memory) (block offset : Z) :
  0 <= k -> claimed_below l k m block ->
  exists m',
    Allocate l m block offset
    = (if k <? num_slots_ l then (true, m', k) else (false, m', offset))
    /\ claimed_below l (k + 1) m' block.
Proof.
  intros Hk (Hh & Hbits).
  pose proof (valid_num_slots BLOCK_SIZE N sizes) as HS.
  pose proof (valid_num_attrs _ _ _ Hvalid) as (_ & _ & HN1).
  unfold Allocate. rewrite (primary_key_bitmap m block Hh).
  destruct (Z.ltb_spec k (num_slots_ l)) as [Hlt|Hge].
  - exists (fst (Flip m (block + header_size_ l) k false)). split.
    + apply Allocate_loop_first_clear; try lia.
      * intros j Hj. rewrite Hbits by lia. apply Z.ltb_lt. lia.
      * rewrite Hbits by lia. apply Z.ltb_ge. lia.
    + split.
      * rewrite <- (primary_key_bitmap m block Hh).
        apply (Flip_header_ok _ _ _ Hvalid); [assumption | | lia].
        unfold PRIMARY_KEY_OFFSET. lia.
      * intros i Hi. destruct (Z.eq_dec i k) as [->|Hne].
        -- rewrite BitmapFacts.Test_Flip_same. symmetry. apply Z.ltb_lt. lia.
        -- rewrite BitmapFacts.Test_Flip_other by assumption.
           rewrite Hbits by lia.
           destruct (Z.ltb_spec i k), (Z.ltb_spec i (k + 1)); try reflexivity; lia.
  - exists m. split.
    + apply Allocate_loop_full. intros j Hj.
      rewrite Hbits by lia. apply Z.ltb_lt. lia.
    + split; [assumption|]. intros i Hi. rewrite Hbits by lia.
      destruct (Z.ltb_spec i k), (Z.ltb_spec i (k + 1)); try reflexivity; lia.
Qed.

Lemma allocate_n_claimed_below (n : nat) (k : nat) (m : memory) (block offset0 : Z) :
  claimed_below l (Z.of_nat k) m block ->
  fst (allocate_n l n m block offset0)
  = map (fun j => if Z.of_nat j <? num_slots_ l then (true, Z.of_nat j)
                  else (false, offset0)) (seq k n)
  /\ claimed_below l (Z.of_nat (k + n)) (snd (allocate_n l n m block offset0)) block.
Proof.
  revert k m. induction n as [|n IH]; intros k m Hinv; cbn [allocate_n seq map].
  - rewrite Nat.add_0_r. split; [reflexivity | assumption].
  - destruct (Allocate_claimed_below (Z.of_nat k) m block offset0 ltac:(lia) Hinv)
      as (m' & Heq & Hinv').
    replace (Z.of_nat k + 1) with (Z.of_nat (S k)) in Hinv' by lia.
    specialize (IH (S k) m' Hinv'). destruct IH as [IH1 IH2].
    assert (Hcall : Allocate l m block offset0
       = (fst (if Z.of_nat k <? num_slots_ l
               then (true, Z.of_nat k) else (false, offset0)), m',
          snd (if Z.of_nat k <? num_slots_ l
               then (true, Z.of_nat k) else (false, offset0)))).
    { rewrite Heq. destruct (Z.of_nat k <? num_slots_ l); reflexivity. }
    rewrite Hcall.
    destruct (allocate_n l n m' block offset0) as [rs m''].
    cbn [fst snd] in *.
    replace (k + S n)%nat with (S k + n)%nat by lia.
    split; [|assumption]. rewrite IH1.
    destruct (Z.of_nat k <? num_slots_ l); reflexivity.
Qed.

(** C1: on a zero-filled block that has just been initialized for a valid
    layout, [n] sequential calls of [Allocate] return, in order, slots 0, 1, 2, ...:
    call number [k] (from 0) returns true with offset [k], the first slot
    whose presence bit is still clear, as long as [k < slot_count]; every
    call from number [slot_count] on returns false and leaves the offset
    variable as it was.  So no slot is returned twice and the successful
    calls are [min(n, slot_count)] many.  After the [n] calls exactly the
    presence bits of the slots below [n] are set. *)
Theorem allocate_sequential (m : memory) (raw id offset0 : Z) (n : nat) :
  zero_filled m raw BLOCK_SIZE ->
  let fresh := InitializeRawBlock m raw l id in
  let results := fst (allocate_n l n fresh raw offset0) in
  results = expected_allocations (num_slots_ l) n offset0
  /\ NoDup (successful_offsets results)
  /\ Z.of_nat (length (successful_offsets results))
     = Z.min (Z.of_nat n) (num_slots_ l)
  /\ forall i, 0 <= i < num_slots_ l ->
       Test (snd (allocate_n l n fresh raw offset0))
            (ColumnNullBitmap fresh raw PRIMARY_KEY_OFFSET) i
       = (i <? Z.of_nat n).
Proof.
  intros Hzero fresh results.
  pose proof (InitializeRawBlock_header_ok _ _ _ Hvalid m raw id) as Hh.
  pose proof (valid_num_attrs _ _ _ Hvalid) as (_ & _ & HN1).
  assert (Hinv : claimed_below l (Z.of_nat 0) fresh raw).
  { split; [exact Hh|]. intros i Hi.
    rewrite <- (primary_key_bitmap fresh raw Hh).
    unfold fresh, PRIMARY_KEY_OFFSET.
    rewrite (InitializeRawBlock_slots_free _ _ _ Hvalid m raw id Hzero 0 i) by lia.
    symmetry. apply Z.ltb_ge. lia. }
  destruct (allocate_n_claimed_below n 0 fresh raw offset0 Hinv) as [H1 [_ H2]].
  fold results in H1.
  pose proof (successful_offsets_run (num_slots_ l) offset0 n 0) as (Hnd & _ & Hlen).
  pose proof (valid_num_slots BLOCK_SIZE N sizes) as HS.
  split; [exact H1|]. rewrite H1.
  split; [exact Hnd|]. split; [rewrite Hlen; lia|].
  intros i Hi. rewrite (primary_key_bitmap fresh raw Hh).
  rewrite H2 by assumption. reflexivity.
Qed.

End SequentialAllocate.

(** ** The example blocks *)

Lemma example_layout_valid : layout_valid 1048576 2 [8; 4].
Proof.
  unfold layout_valid, layout_input_ok, attr_size_ok.
  repeat split; try (vm_compute; (reflexivity || discriminate)).
  repeat constructor; lia.
Qed.

Lemma small_layout_valid : layout_valid 32 1 [4].
Proof.
  unfold layout_valid, layout_input_ok, attr_size_ok.
  repeat split; try (vm_compute; (reflexivity || discriminate)).
  repeat constructor; lia.
Qed.

Lemma zero_memory_zero_filled (block size : Z) : zero_filled zero_memory block size.
Proof. intros a _. reflexivity. Qed.

Lemma example_memory_header_ok : header_ok example_layout example_memory example_block.
Proof.
  intros c Hc. change (num_attrs_ example_layout) with 2 in Hc.
  assert (Hcases : c = 0 \/ c = 1) by lia.
  destruct Hcases as [-> | ->]; vm_compute; reflexivity.
Qed.

Lemma mini_blocks_contiguous_witness :
  load32 example_memory (Block.AttrOffets example_block + 4 * 1)
  = load32 example_memory (Block.AttrOffets example_block + 4 * 0)
    + BitmapSize (num_slots_ example_layout) + num_slots_ example_layout * 8.
Proof.
  pose proof (mini_blocks_contiguous 1048576 2 [8; 4] example_layout_valid
                zero_memory example_block 7) as H.
  cbv zeta in H. destruct H as (_ & H & _).
  exact (H 0 ltac:(lia) ltac:(lia)).
Defined.

Lemma fresh_block_reads_null_witness :
  TupleAccessStrategy.AccessWithNullCheck example_layout example_memory
    example_block 1 0 = nullptr.
Proof.
  apply (fresh_block_reads_null 1048576 2 [8; 4] example_layout_valid
           zero_memory example_block 7 1 0).
  - apply zero_memory_zero_filled.
  - lia.
  - vm_compute. split; [discriminate | reflexivity].
Defined.

Lemma force_not_null_then_read_witness :
  TupleAccessStrategy.AccessWithNullCheck example_layout
    (fst (TupleAccessStrategy.AccessForceNotNull example_layout example_memory
            example_block 1 3)) example_block 1 3
  <> nullptr.
Proof.
  refine (proj1 (proj2 (force_not_null_then_read 1048576 2 [8; 4]
            example_layout_valid example_memory example_block 1 3 _ _ _ _))).
  - exact example_memory_header_ok.
  - reflexivity.
  - lia.
  - vm_compute. split; [discriminate | reflexivity].
Defined.

Lemma set_null_then_read_witness :
  TupleAccessStrategy.AccessWithNullCheck example_layout
    (TupleAccessStrategy.SetNull
       (fst (TupleAccessStrategy.AccessForceNotNull example_layout example_memory
               example_block 0 5)) example_block 0 5)
    example_block 0 5
  = nullptr.
Proof.
  apply (set_null_then_read 1048576 2 [8; 4] example_layout_valid).
  - rewrite AccessForceNotNull_eq. cbn [fst].
    apply (Flip_header_ok 1048576 2 [8; 4] example_layout_valid).
    + exact example_memory_header_ok.
    + lia.
    + lia.
  - lia.
  - vm_compute. split; [discriminate | reflexivity].
Defined.

Lemma Allocate_contract_witness :
  TupleAccessStrategy.Allocate small_layout small_memory example_block 99
  = (true,
     fst (RawConcurrentBitmap.Flip small_memory
            (TupleAccessStrategy.ColumnNullBitmap small_memory example_block
               PRIMARY_KEY_OFFSET) 0 false),
     0)
  /\ 0 <= 0 < num_slots_ small_layout.
Proof.
  assert (H : TupleAccessStrategy.Allocate small_layout small_memory example_block 99
    = (true,
       fst (RawConcurrentBitmap.Flip small_memory
              (TupleAccessStrategy.ColumnNullBitmap small_memory example_block
                 PRIMARY_KEY_OFFSET) 0 false),
       0)) by reflexivity.
  split; [exact H|].
  exact (proj1 (Allocate_contract small_layout small_memory example_block 99
                  _ _ _ H) eq_refl).
Defined.

Lemma allocate_sequential_witness :
  fst (allocate_n small_layout 4 small_memory example_block 99)
  = [(true, 0); (true, 1); (false, 99); (false, 99)].
Proof.
  refine (proj1 (allocate_sequential 32 1 [4] small_layout_valid
                   zero_memory example_block 7 99 4 _)).
  apply zero_memory_zero_filled.
Defined.

(** C8 (the code at a failing input): in the example block, initialized for
    two attributes of 8 and 4 bytes at address 0x100000, the attribute count
    is stored at 0x100014 and reads 2 there, and the sizes follow at
    0x100016.  [Block::NumAttrs] does not return that address: it returns
    67633154, the 32-bit value found at the field (the count and the first
    two sizes), an address past the end of the block, and
    [Block::AttrSizes] returns 1, the 16-bit value read through that
    pointer plus one. *)
Theorem NumAttrs_casts_value_to_pointer :
  Block.num_attrs_field example_block example_layout = 1048596
  /\ load16 example_memory (Block.num_attrs_field example_block example_layout) = 2
  /\ Block.NumAttrs example_memory example_block example_layout = 67633154
  /\ load16 example_memory (Block.NumAttrs example_memory example_block example_layout) = 0
  /\ Block.attr_sizes_field example_block example_layout = 1048598
  /\ example_memory (Block.attr_sizes_field example_block example_layout) = 8
  /\ example_memory (Block.attr_sizes_field example_block example_layout + 1) = 4
  /\ Block.AttrSizes example_memory example_block example_layout = 1
  /\ example_block + 1048576 <= Block.NumAttrs example_memory example_block example_layout.
Proof.
  repeat split; try (vm_compute; reflexivity).
  vm_compute. discriminate.
Qed.

(** ** Concurrent calls of [Allocate]: lemmas *)

Section CallLists.

Import Concurrent.

Lemma set_call_split (cs : list call) (t : nat) (c c' : call) :
  nth_error cs t = Some c ->
  exists before after,
    cs = before ++ c :: after /\ set_call cs t c' = before ++ c' :: after.
Proof.
  revert t. induction cs as [|c0 cs IH]; intros t H.
  - destruct t; discriminate.
  - destruct t as [|t]; cbn [nth_error] in H.
    + injection H as ->. exists [], cs. split; reflexivity.
    + destruct (IH t H) as (b & a & -> & E).
      exists (c0 :: b), a. cbn [set_call]. rewrite E. split; reflexivity.
Qed.

Lemma set_call_length (cs : list call) (t : nat) (c : call) :
  length (set_call cs t c) = length cs.
Proof.
  revert t. induction cs as [|c0 cs IH]; intros t; [reflexivity|].
  destruct t; cbn [set_call length]; [reflexivity | now rewrite IH].
Qed.

Lemma run_length (layout : BlockLayout) (block : Z) (schedule : list nat)
  (m : memory) (cs : list call) :
  length (snd (run layout block schedule m cs)) = length cs.
Proof.
  revert m cs. induction schedule as [|t rest IH]; intros m cs; cbn [run].
  - reflexivity.
  - destruct (nth_error cs t) as [c|]; [|apply IH].
    destruct (call_step layout block m c) as [m' c'].
    rewrite IH. apply set_call_length.
Qed.

Lemma claimed_app (a b : list call) : claimed (a ++ b) = claimed a ++ claimed b.
Proof. apply flat_map_app. Qed.

Lemma claimed_middle (before after : list call) (c : call) :
  claimed (before ++ c :: after) = claimed before ++ claimed [c] ++ claimed after.
Proof.
  rewrite claimed_app. change (c :: after) with ([c] ++ after).
  now rewrite claimed_app.
Qed.

Lemma In_middle (x c c' : call) (before after : list call) :
  In x (before ++ c' :: after) -> x = c' \/ In x (before ++ c :: after).
Proof.
  intros H. apply in_app_or in H. destruct H as [H|[H|H]].
  - right. apply in_or_app. now left.
  - now left.
  - right. apply in_or_app. right. now right.
Qed.

Lemma claimed_length_le (cs : list call) : (length (claimed cs) <= length cs)%nat.
Proof.
  induction cs as [|c cs IH]; [apply Nat.le_refl|].
  change (c :: cs) with ([c] ++ cs). rewrite claimed_app, !length_app.
  destruct c as [| |[i|]]; cbn [claimed flat_map app length] in *; lia.
Qed.

Lemma some_failed_In (cs : list call) :
  some_failed cs = true -> In (Returned None) cs.
Proof.
  unfold some_failed. intros H. apply existsb_exists in H.
  destruct H as (c & Hin & Hc). destruct c as [| |[i|]]; try discriminate.
  exact Hin.
Qed.

(** When every call has returned, each one either holds a slot or failed. *)
Lemma claimed_length_returned (cs : list call) :
  all_returned cs = true ->
  (if some_failed cs then length (claimed cs) < length cs
   else length (claimed cs) = length cs)%nat.
Proof.
  induction cs as [|c cs IH]; intros H; [reflexivity|].
  unfold all_returned in H. cbn [forallb] in H.
  apply andb_prop in H. destruct H as [Hc Hall]. specialize (IH Hall).
  pose proof (claimed_length_le cs) as Hle.
  change (c :: cs) with ([c] ++ cs). rewrite claimed_app, length_app.
  unfold some_failed in *. cbn [existsb app].
  destruct c as [| |[i|]]; try discriminate;
    cbn [claimed flat_map app length orb] in *.
  - destruct (existsb _ cs); lia.
  - lia.
Qed.

End CallLists.

Lemma Flip_false_monotone (m : memory) (bitmap i j : Z) :
  RawConcurrentBitmap.Test m bitmap j = true ->
  RawConcurrentBitmap.Test (fst (RawConcurrentBitmap.Flip m bitmap i false)) bitmap j
  = true.
Proof.
  intros H. destruct (Z.eq_dec j i) as [->|Hne].
  - apply BitmapFacts.Test_Flip_same.
  - now rewrite BitmapFacts.Test_Flip_other.
Qed.

(** The slot indices below [K], as a list. *)
Lemma slot_range_length (K : Z) :
  length (map Z.of_nat (seq 0 (Z.to_nat K))) = Z.to_nat K.
Proof. now rewrite length_map, length_seq. Qed.

Lemma slot_range_In (K i : Z) :
  In i (map Z.of_nat (seq 0 (Z.to_nat K))) <-> 0 <= i < K.
Proof.
  rewrite in_map_iff. split.
  - intros (k & <- & Hk). apply in_seq in Hk. lia.
  - intros Hi. exists (Z.to_nat i). split; [lia|]. apply in_seq. lia.
Qed.

Lemma slot_range_NoDup (K : Z) : NoDup (map Z.of_nat (seq 0 (Z.to_nat K))).
Proof.
  generalize (seq_NoDup (Z.to_nat K) 0).
  induction 1 as [|x l Hx _ IH]; cbn [map]; constructor; [|exact IH].
  rewrite in_map_iff. intros (y & Hy & Hin).
  apply Nat2Z.inj in Hy. now subst.
Qed.

Section ConcurrentAllocate.

Variable BLOCK_SIZE N : Z.
Variable sizes : list Z.
Hypothesis Hvalid : layout_valid BLOCK_SIZE N sizes.

Local Abbreviation l := (mkBlockLayout BLOCK_SIZE N sizes).

Import Concurrent RawConcurrentBitmap TupleAccessStrategy.

Variable block : Z.
Variable m0 : memory.

Local Abbreviation bitmap := (block + header_size_ l).
Local Abbreviation Inv := (invariant l block bitmap m0).

Lemma invariant_init (n : nat) :
  header_ok l m0 block -> Inv m0 (repeat Entered n).
Proof.
  intros Hh.
  assert (Hc : claimed (repeat Entered n) = []).
  { induction n as [|n IH]; [reflexivity | exact IH]. }
  constructor; auto.
  - intros b i H. apply repeat_spec in H. discriminate.
  - intros H. apply repeat_spec in H. discriminate.
  - rewrite Hc. intros i [].
  - rewrite Hc. constructor.
Qed.

(** A step that neither writes memory nor hands out a slot. *)
Lemma invariant_quiet (m : memory) (cs cs' : list call) :
  Inv m cs ->
  claimed cs' = claimed cs ->
  (forall b i, In (Scanning b i) cs' ->
     In (Scanning b i) cs
     \/ (b = bitmap /\ 0 <= i <= num_slots_ l
         /\ forall j, 0 <= j < i -> Test m bitmap j = true)) ->
  (In (Returned None) cs' ->
     In (Returned None) cs
     \/ forall j, 0 <= j < num_slots_ l -> Test m bitmap j = true) ->
  Inv m cs'.
Proof.
  intros [Hh Hmono Hscan Hfail Hcl Hnd Hset] Hc Hs Hf.
  constructor; try rewrite Hc; auto.
  - intros b i Hin. destruct (Hs b i Hin) as [H|H]; auto.
  - intros Hin. destruct (Hf Hin) as [H|H]; auto.
Qed.

(** The step in which a call claims slot [i]. *)
Lemma invariant_claim (m : memory) (before after : list call) (i : Z) :
  Inv m (before ++ Scanning bitmap i :: after) ->
  i < num_slots_ l ->
  Test m bitmap i = false ->
  Inv (fst (Flip m bitmap i false)) (before ++ Returned (Some i) :: after).
Proof.
  intros [Hh Hmono Hscan Hfail Hcl Hnd Hset] Hi Hclear.
  pose proof (valid_num_attrs _ _ _ Hvalid) as (_ & _ & HN1).
  destruct (Hscan bitmap i) as (_ & Hi0 & _); [apply in_elt|].
  rewrite claimed_middle in Hcl, Hnd, Hset.
  cbn [claimed flat_map app] in Hcl, Hnd, Hset.
  assert (Hfresh : ~ In i (claimed before ++ claimed after)).
  { intros Hin. destruct (Hcl i Hin) as (_ & Ht & _). congruence. }
  constructor.
  - rewrite <- (primary_key_bitmap _ _ _ Hvalid m block Hh).
    apply (Flip_header_ok _ _ _ Hvalid); [assumption | | lia].
    unfold PRIMARY_KEY_OFFSET. lia.
  - intros j Hj H. apply Flip_false_monotone. auto.
  - intros b j Hin.
    destruct (In_middle _ (Scanning bitmap i) _ _ _ Hin) as [E|Hin']; [discriminate|].
    destruct (Hscan b j Hin') as (Hb & Hj & Hbits).
    repeat split; try assumption; try lia.
    intros k Hk. apply Flip_false_monotone. auto.
  - intros Hin j Hj.
    destruct (In_middle _ (Scanning bitmap i) _ _ _ Hin) as [E|Hin']; [discriminate|].
    apply Flip_false_monotone. auto.
  - rewrite claimed_middle. cbn [claimed flat_map app].
    intros j Hin. apply in_app_or in Hin. destruct Hin as [Hin|[<-|Hin]].
    + destruct (Hcl j) as (Hj & Ht & Ht0); [apply in_or_app; now left|].
      repeat split; try assumption; try lia. apply Flip_false_monotone. auto.
    + repeat split; try lia.
      * apply BitmapFacts.Test_Flip_same.
      * destruct (Test m0 bitmap i) eqn:E; [|reflexivity].
        rewrite (Hmono i ltac:(lia) E) in Hclear. discriminate.
    + destruct (Hcl j) as (Hj & Ht & Ht0); [apply in_or_app; now right|].
      repeat split; try assumption; try lia. apply Flip_false_monotone. auto.
  - rewrite claimed_middle. cbn [claimed flat_map app].
    apply NoDup_Add with (a := i) (l := claimed before ++ claimed after).
    + apply Add_app.
    + split; assumption.
  - rewrite claimed_middle. cbn [claimed flat_map app].
    intros j Hj Ht. destruct (Z.eq_dec j i) as [->|Hne].
    + right. apply in_elt.
    + rewrite BitmapFacts.Test_Flip_other in Ht by assumption.
      destruct (Hset j Hj Ht) as [H|H]; [now left|right].
      apply in_app_or in H. apply in_or_app.
      destruct H; [now left | right; now right].
Qed.

Lemma invariant_step (m : memory) (before after : list call) (c : call) :
  Inv m (before ++ c :: after) ->
  Inv (fst (call_step l block m c)) (before ++ snd (call_step l block m c) :: after).
Proof.
  intros HI. pose proof HI as [Hh Hmono Hscan Hfail Hcl Hnd Hset].
  destruct c as [|b i|r]; cbn [call_step].
  - (* the call reads the bitmap pointer from the header *)
    cbn [fst snd]. rewrite (primary_key_bitmap _ _ _ Hvalid m block Hh).
    apply (invariant_quiet m _ _ HI).
    + now rewrite !claimed_middle.
    + intros b i Hin.
      destruct (In_middle _ Entered _ _ _ Hin) as [E|Hin']; [|now left].
      injection E as -> ->. right.
      pose proof (valid_num_slots BLOCK_SIZE N sizes).
      repeat split; try lia.
    + intros Hin.
      destruct (In_middle _ Entered _ _ _ Hin) as [E|Hin']; [discriminate|now left].
  - destruct (Hscan b i) as (-> & Hi & Hbits); [apply in_elt|].
    destruct (Z.ltb_spec i (num_slots_ l)) as [Hlt|Hge].
    + pose proof (BitmapFacts.Flip_snd m bitmap i false) as Hsnd.
      destruct (Flip m bitmap i false) as [m' flipped] eqn:E.
      cbn [snd] in Hsnd. subst flipped.
      destruct (Test m bitmap i) eqn:Ht; cbn [Bool.eqb fst snd].
      * (* the slot is taken: move on *)
        assert (m' = m) as ->.
        { rewrite (BitmapFacts.Flip_miss m bitmap i false) in E
            by (rewrite Ht; discriminate).
          now injection E. }
        apply (invariant_quiet m _ _ HI).
        -- now rewrite !claimed_middle.
        -- intros b j Hin.
           destruct (In_middle _ (Scanning bitmap i) _ _ _ Hin) as [E'|Hin'];
             [|now left].
           injection E' as -> ->. right. repeat split; try lia.
           intros k Hk. destruct (Z.eq_dec k i) as [->|Hne]; [assumption|].
           apply Hbits. lia.
        -- intros Hin.
           destruct (In_middle _ (Scanning bitmap i) _ _ _ Hin) as [E'|Hin'];
             [discriminate|now left].
      * (* the slot is free: claim it *)
        replace m' with (fst (Flip m bitmap i false)) by now rewrite E.
        now apply invariant_claim.
    + (* past the last slot: no space *)
      cbn [fst snd]. apply (invariant_quiet m _ _ HI).
      * now rewrite !claimed_middle.
      * intros b j Hin.
        destruct (In_middle _ (Scanning bitmap i) _ _ _ Hin) as [E'|Hin'];
          [discriminate|now left].
      * intros _. right. intros j Hj. apply Hbits. lia.
  - exact HI.
Qed.

Lemma invariant_run (schedule : list nat) (m : memory) (cs : list call) :
  Inv m cs ->
  Inv (fst (run l block schedule m cs)) (snd (run l block schedule m cs)).
Proof.
  revert m cs. induction schedule as [|t rest IH]; intros m cs HI; cbn [run].
  - exact HI.
  - destruct (nth_error cs t) as [c|] eqn:E; [|now apply IH].
    destruct (set_call_split cs t c (snd (call_step l block m c)) E)
      as (before & after & Hcs & Hset).
    destruct (call_step l block m c) as [m' c'] eqn:Estep.
    cbn [snd] in Hset. apply IH. rewrite Hset.
    replace m' with (fst (call_step l block m c)) by now rewrite Estep.
    replace c' with (snd (call_step l block m c)) by now rewrite Estep.
    apply invariant_step. now rewrite <- Hcs.
Qed.

(** Under the invariant the claimed slots are distinct slots of the block,
    and once every call has returned they are [min(calls, slot_count)] many
    if the block started with every slot free. *)
Lemma invariant_count (m : memory) (cs : list call) :
  Inv m cs ->
  NoDup (claimed cs)
  /\ (forall i, In i (claimed cs) -> 0 <= i < num_slots_ l)
  /\ ((forall i, 0 <= i < num_slots_ l -> Test m0 bitmap i = false) ->
      all_returned cs = true ->
      Z.of_nat (length (claimed cs))
      = Z.min (Z.of_nat (length cs)) (num_slots_ l)).
Proof.
  intros [Hh Hmono Hscan Hfail Hcl Hnd Hset].
  pose proof (valid_num_slots BLOCK_SIZE N sizes) as HS.
  assert (Hrange : forall i, In i (claimed cs) -> 0 <= i < num_slots_ l).
  { intros i Hin. now destruct (Hcl i Hin). }
  split; [assumption|]. split; [assumption|].
  intros Hfree Hall.
  assert (Hle : (length (claimed cs) <= Z.to_nat (num_slots_ l))%nat).
  { rewrite <- slot_range_length. apply NoDup_incl_length; [assumption|].
    intros i Hin. apply slot_range_In. auto. }
  pose proof (claimed_length_returned cs Hall) as Hcount.
  destruct (some_failed cs) eqn:Hsf.
  - apply some_failed_In in Hsf. specialize (Hfail Hsf).
    assert (Hge : (Z.to_nat (num_slots_ l) <= length (claimed cs))%nat).
    { rewrite <- slot_range_length.
      apply NoDup_incl_length; [apply slot_range_NoDup|].
      intros i Hin. apply slot_range_In in Hin.
      destruct (Hset i Hin (Hfail i Hin)) as [H|H]; [|assumption].
      rewrite Hfree in H by assumption. discriminate. }
    lia.
  - lia.
Qed.

End ConcurrentAllocate.

(** Every step of a call that has not returned brings it closer to its
    return, whatever the other calls did to the memory in between. *)
Section CallProgress.

Import Concurrent.

Variable layout : BlockLayout.
Variable block : Z.

Lemma steps_left_running (c : call) :
  steps_left layout c = 0%nat <-> running c = false.
Proof. destruct c; cbn [steps_left running]; split; intros H; (lia || congruence). Qed.

Lemma call_step_steps_left (m : memory) (c : call) :
  (steps_left layout (snd (call_step layout block m c))
   <= steps_left layout c - 1)%nat.
Proof.
  destruct c as [|b i|r]; cbn [call_step].
  - cbn [snd steps_left]. rewrite Z.sub_0_r. lia.
  - destruct (Z.ltb_spec i (num_slots_ layout)).
    + destruct (RawConcurrentBitmap.Flip m b i false) as [m' flipped].
      destruct flipped; cbn [snd steps_left]; lia.
    + cbn [snd steps_left]. lia.
  - cbn [snd steps_left]. lia.
Qed.

Lemma nth_error_set_call_same (cs : list call) (t : nat) (c c' : call) :
  nth_error cs t = Some c -> nth_error (set_call cs t c') t = Some c'.
Proof.
  revert t. induction cs as [|c0 cs IH]; intros t H.
  - destruct t; discriminate.
  - destruct t as [|t]; cbn [set_call nth_error] in *; [reflexivity | auto].
Qed.

Lemma nth_error_set_call_other (cs : list call) (t t' : nat) (c' : call) :
  t <> t' -> nth_error (set_call cs t' c') t = nth_error cs t.
Proof.
  revert t t'. induction cs as [|c0 cs IH]; intros t t' Hne.
  - destruct t'; reflexivity.
  - destruct t' as [|t'], t as [|t]; cbn [set_call nth_error];
      try reflexivity; try lia.
    apply IH. lia.
Qed.

Lemma run_steps_left (schedule : list nat) (m : memory) (cs : list call)
  (t : nat) (c : call) :
  nth_error cs t = Some c ->
  exists c', nth_error (snd (run layout block schedule m cs)) t = Some c'
    /\ (steps_left layout c'
        <= steps_left layout c - count_occ Nat.eq_dec schedule t)%nat.
Proof.
  revert m cs c. induction schedule as [|t0 rest IH]; intros m cs c Hc.
  - exists c. cbn [run snd count_occ]. split; [assumption | lia].
  - cbn [run count_occ].
    destruct (nth_error cs t0) as [c0|] eqn:E0.
    + pose proof (call_step_steps_left m c0) as Hdec.
      destruct (call_step layout block m c0) as [m' c0']. cbn [snd] in Hdec.
      destruct (Nat.eq_dec t0 t) as [->|Hne].
      * assert (c0 = c) as -> by congruence.
        destruct (IH m' (set_call cs t c0') c0'
                    (nth_error_set_call_same cs t c c0' Hc)) as (c' & H1 & H2).
        exists c'. split; [assumption | lia].
      * destruct (IH m' (set_call cs t0 c0') c) as (c' & H1 & H2).
        { rewrite nth_error_set_call_other by congruence. assumption. }
        exists c'. split; [assumption | lia].
    + destruct (Nat.eq_dec t0 t) as [->|Hne]; [congruence|].
      apply IH. assumption.
Qed.

(** A schedule that gives each of the [n] calls [slot_count + 2] turns
    brings every call to its return. *)
Lemma run_all_returned (schedule : list nat) (m : memory) (n : nat) :
  (forall t, (t < n)%nat ->
     (2 + Z.to_nat (num_slots_ layout) <= count_occ Nat.eq_dec schedule t)%nat) ->
  all_returned (snd (run layout block schedule m (repeat Entered n))) = true.
Proof.
  intros Hfair. unfold all_returned. apply forallb_forall. intros c' Hin.
  apply In_nth_error in Hin. destruct Hin as [t Ht].
  assert (Hlt : (t < n)%nat).
  { pose proof (run_length layout block schedule m (repeat Entered n)) as Hlen.
    rewrite repeat_length in Hlen. rewrite <- Hlen.
    apply nth_error_Some. congruence. }
  destruct (run_steps_left schedule m (repeat Entered n) t Entered) as (c & Hc & Hle).
  { apply nth_error_repeat. assumption. }
  assert (c = c') as -> by congruence.
  specialize (Hfair t Hlt). cbn [steps_left] in Hle.
  apply Bool.negb_true_iff, steps_left_running. lia.
Qed.

End CallProgress.

(** A call that runs alone is [Allocate]: the return value and the memory
    are those of the loop. *)
Section CallAlone.

Import Concurrent RawConcurrentBitmap TupleAccessStrategy.

Variable layout : BlockLayout.
Variable block : Z.

Lemma call_run_Returned (steps : nat) (m : memory) (r : option Z) :
  call_run layout block steps m (Returned r) = (m, Returned r).
Proof. induction steps as [|k IH]; [reflexivity | exact IH]. Qed.

Lemma call_run_Scanning (remaining extra : nat) (bitmap i : Z) (m : memory)
  (offset : Z) :
  remaining = Z.to_nat (num_slots_ layout - i) ->
  call_run layout block (S remaining + extra) m (Scanning bitmap i)
  = (snd (fst (Allocate_loop remaining bitmap i m offset)),
     Returned (if fst (fst (Allocate_loop remaining bitmap i m offset))
               then Some (snd (Allocate_loop remaining bitmap i m offset))
               else None)).
Proof.
  revert i m. induction remaining as [|r IH]; intros i m Hr.
  - cbn [Nat.add call_run call_step Allocate_loop fst snd].
    destruct (Z.ltb_spec i (num_slots_ layout)); [lia|].
    apply call_run_Returned.
  - cbn [Nat.add call_run call_step Allocate_loop].
    destruct (Z.ltb_spec i (num_slots_ layout)); [|lia].
    destruct (Flip m bitmap i false) as [m' flipped].
    destruct flipped.
    + cbn [fst snd]. apply call_run_Returned.
    + apply (IH (i + 1) m'). lia.
Qed.

Lemma call_run_Allocate (m : memory) (offset : Z) :
  call_run layout block (S (S (Z.to_nat (num_slots_ layout)))) m Entered
  = (snd (fst (Allocate layout m block offset)),
     Returned (if fst (fst (Allocate layout m block offset))
               then Some (snd (Allocate layout m block offset))
               else None)).
Proof.
  cbn [call_run call_step]. unfold Allocate.
  rewrite <- (call_run_Scanning _ 0); [now rewrite Nat.add_0_r | f_equal; lia].
Qed.

End CallAlone.

(** C9: calls of [Allocate] that run concurrently on one block of a valid
    layout whose header holds the column offsets, in any
    interleaving of their atomic flips, never receive the same slot index:
    at every point of every schedule the indices handed out are pairwise
    distinct slots of the block, each with its presence bit set.  Every call
    returns within [slot_count + 2] of its own steps, so a schedule that
    gives each call that many turns ends with all of them returned.  If
    every slot of the block was free at the start, as in a fresh block, then
    once all [n] calls have returned they hold exactly [min(n, slot_count)]
    indices. *)
Theorem concurrent_allocate_distinct (BLOCK_SIZE N : Z) (sizes : list Z)
  (block : Z) (m : memory) (n : nat) (schedule : list nat) :
  layout_valid BLOCK_SIZE N sizes ->
  let layout := mkBlockLayout BLOCK_SIZE N sizes in
  header_ok layout m block ->
  let final := Concurrent.run layout block schedule m (repeat Concurrent.Entered n) in
  NoDup (Concurrent.claimed (snd final))
  /\ (forall i, In i (Concurrent.claimed (snd final)) ->
        0 <= i < num_slots_ layout
        /\ RawConcurrentBitmap.Test (fst final)
             (TupleAccessStrategy.ColumnNullBitmap m block PRIMARY_KEY_OFFSET) i = true)
  /\ ((forall t, (t < n)%nat ->
         (2 + Z.to_nat (num_slots_ layout) <= count_occ Nat.eq_dec schedule t)%nat) ->
      Concurrent.all_returned (snd final) = true)
  /\ (slots_free layout m block ->
      Concurrent.all_returned (snd final) = true ->
      Z.of_nat (length (Concurrent.claimed (snd final)))
      = Z.min (Z.of_nat n) (num_slots_ layout)).
Proof.
  intros Hvalid. cbv zeta. intros Hh.
  pose proof (invariant_run _ _ _ Hvalid block m schedule m _
                (invariant_init _ _ _ block m n Hh)) as HI.
  destruct (invariant_count _ _ _ block m _ _ HI) as (Hnd & Hrange & Hcount).
  rewrite (primary_key_bitmap _ _ _ Hvalid m block Hh).
  split; [assumption|]. split; [|split].
  - intros i Hin. split; [auto|].
    destruct HI as [_ _ _ _ Hcl _ _]. now destruct (Hcl i Hin) as (_ & Ht & _).
  - apply run_all_returned.
  - intros Hfree Hall.
    unfold slots_free in Hfree.
    rewrite (primary_key_bitmap _ _ _ Hvalid m block Hh) in Hfree.
    rewrite (Hcount Hfree Hall).
    rewrite run_length, repeat_length. reflexivity.
Qed.

Lemma small_memory_header_ok : header_ok small_layout small_memory example_block.
Proof.
  intros c Hc. change (num_attrs_ small_layout) with 1 in Hc.
  assert (c = 0) as -> by lia. vm_compute. reflexivity.
Qed.

Lemma small_memory_slots_free : slots_free small_layout small_memory example_block.
Proof.
  intros i Hi. change (num_slots_ small_layout) with 2 in Hi.
  assert (Hcases : i = 0 \/ i = 1) by lia.
  destruct Hcases as [-> | ->]; vm_compute; reflexivity.
Qed.

(** Three calls on the two-slot block, taking turns. *)
Lemma concurrent_allocate_distinct_witness :
  Concurrent.claimed
    (snd (Concurrent.run small_layout example_block
            [0; 1; 2; 0; 1; 2; 0; 1; 2; 0; 1; 2]%nat
            small_memory (repeat Concurrent.Entered 3)))
  = [0; 1]
  /\ Z.of_nat (length (Concurrent.claimed
       (snd (Concurrent.run small_layout example_block
               [0; 1; 2; 0; 1; 2; 0; 1; 2; 0; 1; 2]%nat
               small_memory (repeat Concurrent.Entered 3)))))
     = Z.min 3 (num_slots_ small_layout).
Proof.
  split; [vm_compute; reflexivity|].
  refine (proj2 (proj2 (proj2 (concurrent_allocate_distinct 32 1 [4] example_block
            small_memory 3 [0; 1; 2; 0; 1; 2; 0; 1; 2; 0; 1; 2]%nat
            small_layout_valid small_memory_header_ok))) _ _).
  - exact small_memory_slots_free.
  - vm_compute. reflexivity.
Defined.

(** ** The end-to-end scenario

    A zeroed block initialized with id 7 for attributes of 8 and 4 bytes and
    100 slots: the first allocation returns slot 0; after a forced not-null
    write of column 0 at that slot, column 0 reads back the address of the
    attribute and column 1, untouched, still reads null. *)
Example scenario_slot_count : num_slots_ scenario_layout = 100.
Proof. vm_compute. reflexivity. Qed.

Example scenario_block_id : load32 scenario_memory example_block = 7.
Proof. vm_compute. reflexivity. Qed.

Example scenario_allocate :
  let '(ok, _, offset) :=
    TupleAccessStrategy.Allocate scenario_layout scenario_memory example_block 99 in
  (ok, offset) = (true, 0).
Proof. vm_compute. reflexivity. Qed.

Example scenario_write_read :
  let '(_, m1, slot) :=
    TupleAccessStrategy.Allocate scenario_layout scenario_memory example_block 99 in
  let (m2, p) :=
    TupleAccessStrategy.AccessForceNotNull scenario_layout m1 example_block 0 slot in
  p = example_block + 24 + 13
  /\ TupleAccessStrategy.AccessWithNullCheck scenario_layout m2 example_block 0 slot = p
  /\ TupleAccessStrategy.AccessWithNullCheck scenario_layout m2 example_block 1 slot
     = nullptr.
Proof. vm_compute. repeat split; reflexivity. Qed.

(** * Further properties of the accessors *)

(** ** What a run of the [Allocate] loop tells about the bitmap *)

Section AllocateConverse.

Import RawConcurrentBitmap TupleAccessStrategy.

(** A loop that returns true stopped at the first clear bit, and set it. *)
Lemma Allocate_loop_true (remaining : nat) (bitmap i : Z) (m : memory)
  (offset : Z) (m' : memory) (k : Z) :
  Allocate_loop remaining bitmap i m offset = (true, m', k) ->
  i <= k < i + Z.of_nat remaining
  /\ (forall j, i <= j < k -> Test m bitmap j = true)
  /\ Test m bitmap k = false
  /\ m' = fst (Flip m bitmap k false).
Proof.
  revert i. induction remaining as [|r IH]; intros i H; cbn [Allocate_loop] in H.
  - discriminate.
  - destruct (Test m bitmap i) eqn:Ht.
    + rewrite BitmapFacts.Flip_miss in H by (rewrite Ht; discriminate).
      destruct (IH (i + 1) H) as (Hk & Hset & Hclear & Hm).
      split; [lia|]. split; [|split; assumption].
      intros j Hj. destruct (Z.eq_dec j i) as [->|Hne]; [assumption|].
      apply Hset. lia.
    + pose proof (BitmapFacts.Flip_hit m bitmap i false Ht) as Hhit.
      rewrite Hhit in H. injection H as <- <-.
      split; [lia|]. split; [intros j Hj; lia|]. split; [assumption|].
      now rewrite Hhit.
Qed.

(** A loop that returns false found every bit it looked at set. *)
Lemma Allocate_loop_false (remaining : nat) (bitmap i : Z) (m : memory)
  (offset : Z) (m' : memory) (offset' : Z) :
  Allocate_loop remaining bitmap i m offset = (false, m', offset') ->
  forall j, i <= j < i + Z.of_nat remaining -> Test m bitmap j = true.
Proof.
  revert i. induction remaining as [|r IH]; intros i H j Hj; cbn [Allocate_loop] in H.
  - lia.
  - destruct (Test m bitmap i) eqn:Ht.
    + rewrite BitmapFacts.Flip_miss in H by (rewrite Ht; discriminate).
      destruct (Z.eq_dec j i) as [->|Hne]; [assumption|].
      apply (IH (i + 1) H). lia.
    + rewrite (BitmapFacts.Flip_hit m bitmap i false Ht) in H. discriminate.
Qed.

End AllocateConverse.

(** X1: whatever the state of the block, if slot [k] is the lowest slot
    whose presence bit is clear, [Allocate] returns true with offset [k];
    in the memory it leaves, the presence bit of [k] is set, every other
    bit of the bitmap is as before, and no byte other than the one holding
    that bit has changed. *)
Theorem Allocate_lowest_free (layout : BlockLayout) (m : memory)
  (block offset k : Z) :
  let bitmap := TupleAccessStrategy.ColumnNullBitmap m block PRIMARY_KEY_OFFSET in
  0 <= k < num_slots_ layout ->
  (forall j, 0 <= j < k -> RawConcurrentBitmap.Test m bitmap j = true) ->
  RawConcurrentBitmap.Test m bitmap k = false ->
  exists m',
    TupleAccessStrategy.Allocate layout m block offset = (true, m', k)
    /\ RawConcurrentBitmap.Test m' bitmap k = true
    /\ (forall j, j <> k ->
          RawConcurrentBitmap.Test m' bitmap j = RawConcurrentBitmap.Test m bitmap j)
    /\ (forall a, a <> bitmap + k / 8 -> m' a = m a).
Proof.
  intros bitmap Hk Hset Hclear.
  exists (fst (RawConcurrentBitmap.Flip m bitmap k false)).
  split; [|split; [|split]].
  - unfold TupleAccessStrategy.Allocate. fold bitmap.
    apply Allocate_loop_first_clear; [lia | intros j Hj; apply Hset; lia | assumption].
  - apply BitmapFacts.Test_Flip_same.
  - intros j Hj. now apply BitmapFacts.Test_Flip_other.
  - intros a Ha. now apply BitmapFacts.Flip_frame.
Qed.

Lemma Allocate_lowest_free_witness :
  exists m',
    TupleAccessStrategy.Allocate small_layout small_memory example_block 99
    = (true, m', 0).
Proof.
  destruct (Allocate_lowest_free small_layout small_memory example_block 99 0)
    as (m' & H & _).
  - vm_compute. split; [discriminate | reflexivity].
  - intros j Hj. lia.
  - vm_compute. reflexivity.
  - exists m'. exact H.
Defined.

(** X2: [Allocate] returns false exactly when the presence bit of every
    slot of the layout is set: a block refuses an allocation only when it
    is full, and a full block always refuses. *)
Theorem Allocate_false_iff_full (layout : BlockLayout) (m : memory)
  (block offset : Z) :
  fst (fst (TupleAccessStrategy.Allocate layout m block offset)) = false
  <-> (forall j, 0 <= j < num_slots_ layout ->
         RawConcurrentBitmap.Test m
           (TupleAccessStrategy.ColumnNullBitmap m block PRIMARY_KEY_OFFSET) j
         = true).
Proof.
  unfold TupleAccessStrategy.Allocate. split.
  - intros H j Hj.
    destruct (TupleAccessStrategy.Allocate_loop _ _ 0 m offset)
      as [[ok m'] offset'] eqn:E.
    cbn [fst] in H. subst ok.
    apply (Allocate_loop_false _ _ _ _ _ _ _ E). lia.
  - intros Hfull. rewrite Allocate_loop_full; [reflexivity|].
    intros j Hj. apply Hfull. lia.
Qed.

(** ** Flips of two different bits *)

Section TwoFlips.

Import RawConcurrentBitmap.

(** Two bits are different when they lie in different bytes or at
    different places of one byte. *)
Lemma Test_Flip_distinct (m : memory) (bitmap pos : Z) (e : bool)
  (bitmap' pos' : Z) :
  bitmap' + pos' / 8 <> bitmap + pos / 8 \/ pos' mod 8 <> pos mod 8 ->
  Test (fst (Flip m bitmap pos e)) bitmap' pos' = Test m bitmap' pos'.
Proof.
  intros Hd.
  destruct (Z.eq_dec (bitmap' + pos' / 8) (bitmap + pos / 8)) as [Ha|Ha].
  - destruct Hd as [Hd|Hd]; [contradiction|].
    pose proof (Z.mod_pos_bound pos 8 ltac:(lia)).
    pose proof (Z.mod_pos_bound pos' 8 ltac:(lia)).
    unfold Flip. destruct (Bool.eqb _ e); cbn [fst]; [|reflexivity].
    unfold Test. rewrite Ha, store8_same, testbit_flip_byte by lia.
    destruct (Z.eqb_spec (pos' mod 8) (pos mod 8)); [contradiction|reflexivity].
  - now apply BitmapFacts.Test_Flip_frame.
Qed.

Lemma flip_byte_commute (old j1 j2 : Z) :
  0 <= j1 < 8 -> 0 <= j2 < 8 ->
  u8 (Z.lxor (u8 (Z.lxor old (Z.shiftl 1 j1))) (Z.shiftl 1 j2))
  = u8 (Z.lxor (u8 (Z.lxor old (Z.shiftl 1 j2))) (Z.shiftl 1 j1)).
Proof.
  intros H1 H2. apply Z.bits_inj'. intros n Hn. unfold u8.
  destruct (Z.lt_ge_cases n 8) as [Hlt|Hge].
  - rewrite !Z.mod_pow2_bits_low by lia.
    rewrite !Z.lxor_spec, !Z.mod_pow2_bits_low by lia.
    rewrite !Z.lxor_spec.
    destruct (Z.testbit old n), (Z.testbit (Z.shiftl 1 j1) n),
      (Z.testbit (Z.shiftl 1 j2) n); reflexivity.
  - rewrite !Z.mod_pow2_bits_high by lia. reflexivity.
Qed.

(** Flips of two different bits commute: either order leaves the same
    byte at every address. *)
Lemma Flip_commute (m : memory) (b1 s1 : Z) (e1 : bool) (b2 s2 : Z) (e2 : bool) :
  b1 + s1 / 8 <> b2 + s2 / 8 \/ s1 mod 8 <> s2 mod 8 ->
  forall a,
    fst (Flip (fst (Flip m b1 s1 e1)) b2 s2 e2) a
    = fst (Flip (fst (Flip m b2 s2 e2)) b1 s1 e1) a.
Proof.
  intros Hd a.
  assert (Hd' : b2 + s2 / 8 <> b1 + s1 / 8 \/ s2 mod 8 <> s1 mod 8)
    by (destruct Hd; [left | right]; congruence).
  pose proof (Test_Flip_distinct m b1 s1 e1 b2 s2 Hd') as T2.
  pose proof (Test_Flip_distinct m b2 s2 e2 b1 s1 Hd) as T1.
  pose proof (Z.mod_pos_bound s1 8 ltac:(lia)) as J1.
  pose proof (Z.mod_pos_bound s2 8 ltac:(lia)) as J2.
  destruct (Bool.eqb (Test m b1 s1) e1) eqn:D1.
  - apply eqb_prop in D1.
    destruct (Bool.eqb (Test m b2 s2) e2) eqn:D2.
    + apply eqb_prop in D2.
      rewrite (BitmapFacts.Flip_hit (fst (Flip m b1 s1 e1)) b2 s2 e2)
        by (rewrite T2; exact D2).
      rewrite (BitmapFacts.Flip_hit (fst (Flip m b2 s2 e2)) b1 s1 e1)
        by (rewrite T1; exact D1).
      rewrite (BitmapFacts.Flip_hit m b1 s1 e1 D1),
              (BitmapFacts.Flip_hit m b2 s2 e2 D2).
      cbn [fst]. unfold store8.
      destruct (Z.eqb_spec a (b2 + s2 / 8)) as [E2|E2];
        destruct (Z.eqb_spec a (b1 + s1 / 8)) as [E1|E1]; subst.
      * rewrite <- E1.
        destruct (Z.eqb_spec (b2 + s2 / 8) (b2 + s2 / 8)); [|contradiction].
        apply flip_byte_commute; assumption.
      * destruct (Z.eqb_spec (b2 + s2 / 8) (b1 + s1 / 8)); [contradiction|].
        reflexivity.
      * destruct (Z.eqb_spec (b1 + s1 / 8) (b2 + s2 / 8)); [contradiction|].
        reflexivity.
      * reflexivity.
    + apply eqb_false_iff in D2.
      rewrite (BitmapFacts.Flip_miss (fst (Flip m b1 s1 e1)) b2 s2 e2)
        by (rewrite T2; exact D2).
      rewrite (BitmapFacts.Flip_miss m b2 s2 e2 D2). reflexivity.
  - apply eqb_false_iff in D1.
    rewrite (BitmapFacts.Flip_miss (fst (Flip m b2 s2 e2)) b1 s1 e1)
      by (rewrite T1; exact D1).
    rewrite (BitmapFacts.Flip_miss m b1 s1 e1 D1). reflexivity.
Qed.

(** Two slots of one bitmap are two different bits. *)
Lemma slots_distinct_bits (bitmap s s' : Z) :
  s <> s' ->
  bitmap + s / 8 <> bitmap + s' / 8 \/ s mod 8 <> s' mod 8.
Proof.
  intros Hne.
  destruct (Z.eq_dec (s / 8) (s' / 8)) as [Hq|Hq]; [right | left; lia].
  intros Hr. apply Hne.
  rewrite (Z.div_mod s 8), (Z.div_mod s' 8) by lia. congruence.
Qed.

End TwoFlips.

(** ** Where the bits and the values of a block lie *)

Section Regions.

Variable BLOCK_SIZE N : Z.
Variable sizes : list Z.
Hypothesis Hvalid : layout_valid BLOCK_SIZE N sizes.

Local Abbreviation l := (mkBlockLayout BLOCK_SIZE N sizes).
Local Abbreviation size_of c := (nth (Z.to_nat c) sizes 0).

Import RawConcurrentBitmap TupleAccessStrategy.

(** The mini-block of a column ends before the mini-block of any later
    column starts. *)
Lemma column_regions_ordered (c c' : Z) :
  0 <= c < c' -> c' < N ->
  column_offset_of l c + mini_block_bytes (num_slots_ l) (size_of c)
  <= column_offset_of l c'.
Proof.
  intros Hc Hc'.
  assert (H : forall d : nat, c + 1 + Z.of_nat d < N ->
            column_offset_of l c + mini_block_bytes (num_slots_ l) (size_of c)
            <= column_offset_of l (c + 1 + Z.of_nat d)).
  { induction d as [|d IH]; intros Hd.
    - rewrite Z.add_0_r, (column_offset_of_succ _ _ _ Hvalid) by lia. lia.
    - replace (c + 1 + Z.of_nat (S d)) with (c + 1 + Z.of_nat d + 1) by lia.
      rewrite (column_offset_of_succ _ _ _ Hvalid) by lia.
      pose proof (valid_size_nth _ _ _ Hvalid (c + 1 + Z.of_nat d) ltac:(lia)) as Hs.
      unfold attr_size_ok in Hs.
      pose proof (mini_block_bytes_nonneg (num_slots_ l)
                    (size_of (c + 1 + Z.of_nat d))
                    (proj1 (valid_num_slots BLOCK_SIZE N sizes)) ltac:(lia)).
      specialize (IH ltac:(lia)). lia. }
  specialize (H (Z.to_nat (c' - c - 1)) ltac:(lia)).
  replace (c + 1 + Z.of_nat (Z.to_nat (c' - c - 1))) with c' in H by lia.
  exact H.
Qed.

(** The byte that holds the null bit of slot [s] lies in the bitmap of its
    column. *)
Lemma null_bit_address (m : memory) (block c s : Z) :
  header_ok l m block -> 0 <= c < N -> 0 <= s < num_slots_ l ->
  block + column_offset_of l c <= ColumnNullBitmap m block c + s / 8
  /\ ColumnNullBitmap m block c + s / 8
     < block + column_offset_of l c + BitmapSize (num_slots_ l).
Proof.
  intros Hh Hc Hs.
  rewrite (ColumnNullBitmap_header_ok _ _ _ m block c Hh Hc).
  pose proof (BitmapSize_bounds (num_slots_ l)).
  assert (0 <= s / 8 < BitmapSize (num_slots_ l)); [|lia].
  split; [apply Z.div_pos; lia | apply Z.div_lt_upper_bound; lia].
Qed.

(** The attribute of slot [s] lies in the value array of its column. *)
Lemma attribute_address (m : memory) (block c s : Z) :
  header_ok l m block -> 0 <= c < N -> 0 <= s < num_slots_ l ->
  ColumnStart l m block c + attr_offset_in_column l c s
  = block + column_offset_of l c + BitmapSize (num_slots_ l) + size_of c * s
  /\ block + column_offset_of l c + BitmapSize (num_slots_ l) + size_of c * s
     + size_of c
     <= block + column_offset_of l c
        + mini_block_bytes (num_slots_ l) (size_of c).
Proof.
  intros Hh Hc Hs.
  rewrite (attr_offset_in_column_exact _ _ _ Hvalid) by lia.
  unfold ColumnStart, MiniBlock.ColumnStart.
  change (Block.Column m block c) with (ColumnNullBitmap m block c).
  rewrite (ColumnNullBitmap_header_ok _ _ _ m block c Hh Hc).
  split; [reflexivity|].
  pose proof (valid_size_nth _ _ _ Hvalid c Hc) as Hsz. unfold attr_size_ok in Hsz.
  unfold mini_block_bytes. nia.
Qed.

(** The null bits of two different (column, slot) pairs are different
    bits. *)
Lemma null_bits_distinct (m : memory) (block c s c' s' : Z) :
  header_ok l m block ->
  0 <= c < N -> 0 <= s < num_slots_ l ->
  0 <= c' < N -> 0 <= s' < num_slots_ l ->
  c' <> c \/ s' <> s ->
  ColumnNullBitmap m block c' + s' / 8 <> ColumnNullBitmap m block c + s / 8
  \/ s' mod 8 <> s mod 8.
Proof.
  intros Hh Hc Hs Hc' Hs' Hne.
  destruct (Z.eq_dec c' c) as [->|Hcc].
  - destruct Hne as [Hne|Hne]; [contradiction|].
    now apply slots_distinct_bits.
  - left.
    pose proof (null_bit_address m block c s Hh Hc Hs) as Ha.
    pose proof (null_bit_address m block c' s' Hh Hc' Hs') as Ha'.
    pose proof (valid_size_nth _ _ _ Hvalid c Hc) as Hsz.
    pose proof (valid_size_nth _ _ _ Hvalid c' Hc') as Hsz'.
    unfold attr_size_ok in *.
    assert (Hm : forall x, 1 <= x ->
              BitmapSize (num_slots_ l) <= mini_block_bytes (num_slots_ l) x).
    { intros x Hx. unfold mini_block_bytes. nia. }
    pose proof (Hm _ (proj1 Hsz)). pose proof (Hm _ (proj1 Hsz')).
    destruct (Z.lt_ge_cases c c').
    + pose proof (column_regions_ordered c c' ltac:(lia) ltac:(lia)). lia.
    + pose proof (column_regions_ordered c' c ltac:(lia) ltac:(lia)). lia.
Qed.

(** No null bit shares a byte with an attribute. *)
Lemma null_bit_not_in_attribute (m : memory) (block c s c' s' k : Z) :
  header_ok l m block ->
  0 <= c < N -> 0 <= s < num_slots_ l ->
  0 <= c' < N -> 0 <= s' < num_slots_ l ->
  0 <= k < size_of c' ->
  ColumnStart l m block c' + attr_offset_in_column l c' s' + k
  <> ColumnNullBitmap m block c + s / 8.
Proof.
  intros Hh Hc Hs Hc' Hs' Hk.
  pose proof (null_bit_address m block c s Hh Hc Hs) as Ha.
  destruct (attribute_address m block c' s' Hh Hc' Hs') as (-> & Hv).
  pose proof (valid_size_nth _ _ _ Hvalid c Hc) as Hsz.
  pose proof (valid_size_nth _ _ _ Hvalid c' Hc') as Hsz'.
  unfold attr_size_ok in *.
  assert (Hm : BitmapSize (num_slots_ l)
               <= mini_block_bytes (num_slots_ l) (size_of c)).
  { unfold mini_block_bytes. nia. }
  destruct (Z.eq_dec c' c) as [->|Hcc].
  - nia.
  - destruct (Z.lt_ge_cases c c').
    + pose proof (column_regions_ordered c c' ltac:(lia) ltac:(lia)). nia.
    + pose proof (column_regions_ordered c' c ltac:(lia) ltac:(lia)). nia.
Qed.

(** A flip of the null bit of one (column, slot) pair leaves the
    null-checked read of every other pair as it was. *)
Lemma Flip_other_attribute (m : memory) (block c s : Z) (e : bool) (c' s' : Z) :
  header_ok l m block ->
  0 <= c < N -> 0 <= s < num_slots_ l ->
  0 <= c' < N -> 0 <= s' < num_slots_ l ->
  c' <> c \/ s' <> s ->
  AccessWithNullCheck l (fst (Flip m (ColumnNullBitmap m block c) s e)) block c' s'
  = AccessWithNullCheck l m block c' s'.
Proof.
  intros Hh Hc Hs Hc' Hs' Hne.
  pose proof (Flip_header_ok _ _ _ Hvalid m block c s e Hh Hc (proj1 Hs)) as Hh'.
  set (m' := fst (Flip m (ColumnNullBitmap m block c) s e)) in *.
  assert (Hb : ColumnNullBitmap m' block c' = ColumnNullBitmap m block c').
  { rewrite (ColumnNullBitmap_header_ok _ _ _ m' block c' Hh' Hc').
    rewrite (ColumnNullBitmap_header_ok _ _ _ m block c' Hh Hc').
    reflexivity. }
  unfold AccessWithNullCheck, ColumnStart.
  change (Block.Column m' block c') with (ColumnNullBitmap m' block c').
  change (Block.Column m block c') with (ColumnNullBitmap m block c').
  rewrite Hb. unfold m'.
  rewrite Test_Flip_distinct; [reflexivity|].
  now apply null_bits_distinct.
Qed.

(** A flip of a null bit leaves every byte of every attribute as it was. *)
Lemma Flip_preserves_attribute (m : memory) (block c s : Z) (e : bool)
  (c' s' k : Z) :
  header_ok l m block ->
  0 <= c < N -> 0 <= s < num_slots_ l ->
  0 <= c' < N -> 0 <= s' < num_slots_ l ->
  0 <= k < size_of c' ->
  fst (Flip m (ColumnNullBitmap m block c) s e)
    (ColumnStart l m block c' + attr_offset_in_column l c' s' + k)
  = m (ColumnStart l m block c' + attr_offset_in_column l c' s' + k).
Proof.
  intros Hh Hc Hs Hc' Hs' Hk.
  apply BitmapFacts.Flip_frame.
  now apply null_bit_not_in_attribute.
Qed.

End Regions.

(** ** Allocation, deletion and the null bits of a block *)

Section AccessorTheorems.

Variable BLOCK_SIZE N : Z.
Variable sizes : list Z.
Hypothesis Hvalid : layout_valid BLOCK_SIZE N sizes.

Local Abbreviation l := (mkBlockLayout BLOCK_SIZE N sizes).
Local Abbreviation size_of c := (nth (Z.to_nat c) sizes 0).

Import RawConcurrentBitmap TupleAccessStrategy.

Lemma primary_key_in_range : 0 <= PRIMARY_KEY_OFFSET < N.
Proof.
  pose proof (valid_num_attrs _ _ _ Hvalid) as (_ & _ & HN1).
  unfold PRIMARY_KEY_OFFSET. lia.
Qed.

Lemma ColumnNullBitmap_after_Flip (m : memory) (block c s : Z) (e : bool) (c' : Z) :
  header_ok l m block -> 0 <= c < N -> 0 <= s -> 0 <= c' < N ->
  ColumnNullBitmap (fst (Flip m (ColumnNullBitmap m block c) s e)) block c'
  = ColumnNullBitmap m block c'.
Proof.
  intros Hh Hc Hs Hc'.
  pose proof (Flip_header_ok _ _ _ Hvalid m block c s e Hh Hc Hs) as Hh'.
  rewrite (ColumnNullBitmap_header_ok _ _ _ _ block c' Hh' Hc').
  rewrite (ColumnNullBitmap_header_ok _ _ _ m block c' Hh Hc').
  reflexivity.
Qed.

(** What a successful [Allocate] did, in terms of the flip it made. *)
Lemma Allocate_true_inv (m : memory) (block offset : Z) (m' : memory) (i : Z) :
  Allocate l m block offset = (true, m', i) ->
  0 <= i < num_slots_ l
  /\ (forall j, 0 <= j < i ->
        Test m (ColumnNullBitmap m block PRIMARY_KEY_OFFSET) j = true)
  /\ Test m (ColumnNullBitmap m block PRIMARY_KEY_OFFSET) i = false
  /\ m' = fst (Flip m (ColumnNullBitmap m block PRIMARY_KEY_OFFSET) i false).
Proof.
  intros H. unfold Allocate in H.
  destruct (Allocate_loop_true _ _ _ _ _ _ _ H) as (Hi & Hset & Hclear & Hm).
  pose proof (valid_num_slots BLOCK_SIZE N sizes).
  repeat split; try assumption; lia.
Qed.


(** X4: freeing the slot an allocation returned, by setting its
    primary-key attribute null, undoes the allocation: every null-checked
    read gives what it gave before the allocation, and the next [Allocate]
    returns the same slot again. *)
Theorem free_then_allocate (m : memory) (block offset : Z) (m1 : memory)
  (i offset' : Z) :
  header_ok l m block ->
  Allocate l m block offset = (true, m1, i) ->
  let m2 := SetNull m1 block PRIMARY_KEY_OFFSET i in
  (forall c s, 0 <= c < N -> 0 <= s < num_slots_ l ->
     AccessWithNullCheck l m2 block c s = AccessWithNullCheck l m block c s)
  /\ exists m3, Allocate l m2 block offset' = (true, m3, i).
Proof.
  intros Hh H m2.
  destruct (Allocate_true_inv m block offset m1 i H) as (Hi & Hset & Hclear & ->).
  pose proof primary_key_in_range as Hpk.
  set (bm := ColumnNullBitmap m block PRIMARY_KEY_OFFSET) in *.
  set (m1 := fst (Flip m bm i false)) in *.
  pose proof (Flip_header_ok _ _ _ Hvalid m block PRIMARY_KEY_OFFSET i false
                Hh Hpk (proj1 Hi)) as Hh1.
  fold bm in Hh1. fold m1 in Hh1.
  assert (Hbm1 : ColumnNullBitmap m1 block PRIMARY_KEY_OFFSET = bm).
  { unfold m1, bm. apply ColumnNullBitmap_after_Flip; (assumption || lia). }
  assert (Hm2 : m2 = fst (Flip m1 bm i true)).
  { unfold m2, SetNull. now rewrite Hbm1. }
  pose proof (Flip_header_ok _ _ _ Hvalid m1 block PRIMARY_KEY_OFFSET i true
                Hh1 Hpk (proj1 Hi)) as Hh2.
  rewrite Hbm1, <- Hm2 in Hh2.
  assert (Hbm2 : ColumnNullBitmap m2 block PRIMARY_KEY_OFFSET = bm).
  { rewrite (ColumnNullBitmap_header_ok _ _ _ m2 block _ Hh2 Hpk).
    unfold bm. now rewrite (ColumnNullBitmap_header_ok _ _ _ m block _ Hh Hpk). }
  assert (Hbits : forall j, Test m2 bm j = Test m bm j).
  { intros j. rewrite Hm2. destruct (Z.eq_dec j i) as [->|Hne].
    - rewrite BitmapFacts.Test_Flip_same. now rewrite Hclear.
    - rewrite BitmapFacts.Test_Flip_other by assumption.
      unfold m1. now rewrite BitmapFacts.Test_Flip_other. }
  split.
  - intros c s Hc Hs.
    destruct (Z.eq_dec c PRIMARY_KEY_OFFSET) as [->|Hc0].
    + destruct (Z.eq_dec s i) as [->|Hsi].
      * unfold AccessWithNullCheck. rewrite Hbm2. fold bm.
        rewrite Hbits, Hclear. reflexivity.
      * rewrite Hm2, <- Hbm1.
        rewrite (Flip_other_attribute _ _ _ Hvalid) by (assumption || (right; assumption)).
        unfold m1, bm.
        now rewrite (Flip_other_attribute _ _ _ Hvalid) by (assumption || (right; assumption)).
    + rewrite Hm2, <- Hbm1.
      rewrite (Flip_other_attribute _ _ _ Hvalid) by (assumption || (left; assumption)).
      unfold m1, bm.
      now rewrite (Flip_other_attribute _ _ _ Hvalid) by (assumption || (left; assumption)).
  - exists (fst (Flip m2 bm i false)).
    unfold Allocate. rewrite Hbm2.
    apply Allocate_loop_first_clear.
    + lia.
    + intros j Hj. rewrite Hbits. apply Hset. lia.
    + now rewrite Hbits.
Qed.

(** X5: a forced not-null write is idempotent: repeated at once on the same
    column and slot it changes no byte of the memory and returns the same
    address. *)
Theorem AccessForceNotNull_idempotent (m : memory) (block c s : Z) :
  header_ok l m block -> 0 <= c < N -> 0 <= s < num_slots_ l ->
  AccessForceNotNull l (fst (AccessForceNotNull l m block c s)) block c s
  = AccessForceNotNull l m block c s.
Proof.
  intros Hh Hc Hs. rewrite !AccessForceNotNull_eq. cbn [fst].
  rewrite ColumnNullBitmap_after_Flip by (assumption || lia).
  set (bm := ColumnNullBitmap m block c).
  rewrite (BitmapFacts.Flip_miss (fst (Flip m bm s false)) bm s false);
    [reflexivity|].
  rewrite BitmapFacts.Test_Flip_same. discriminate.
Qed.

(** X6: setting an attribute null is idempotent: a second [SetNull] of the
    same column and slot changes no byte of the memory. *)
Theorem SetNull_idempotent (m : memory) (block c s : Z) :
  header_ok l m block -> 0 <= c < N -> 0 <= s < num_slots_ l ->
  SetNull (SetNull m block c s) block c s = SetNull m block c s.
Proof.
  intros Hh Hc Hs. unfold SetNull.
  rewrite ColumnNullBitmap_after_Flip by (assumption || lia).
  set (bm := ColumnNullBitmap m block c).
  rewrite (BitmapFacts.Flip_miss (fst (Flip m bm s true)) bm s true);
    [reflexivity|].
  rewrite BitmapFacts.Test_Flip_same. discriminate.
Qed.

(** X7: setting an attribute null, or forcing it not null, changes the
    null status of that attribute only: the null-checked read of every
    other (column, slot) pair of the block gives what it gave before. *)
Theorem null_ops_leave_other_attributes (m : memory) (block c s c' s' : Z) :
  header_ok l m block ->
  0 <= c < N -> 0 <= s < num_slots_ l ->
  0 <= c' < N -> 0 <= s' < num_slots_ l ->
  c' <> c \/ s' <> s ->
  AccessWithNullCheck l (SetNull m block c s) block c' s'
  = AccessWithNullCheck l m block c' s'
  /\ AccessWithNullCheck l (fst (AccessForceNotNull l m block c s)) block c' s'
     = AccessWithNullCheck l m block c' s'.
Proof.
  intros Hh Hc Hs Hc' Hs' Hne. split.
  - unfold SetNull. now apply (Flip_other_attribute _ _ _ Hvalid).
  - rewrite AccessForceNotNull_eq. cbn [fst].
    now apply (Flip_other_attribute _ _ _ Hvalid).
Qed.

(** X8: no operation on null bits touches a stored value: [SetNull],
    [AccessForceNotNull] and [Allocate] leave every byte of every attribute
    of the block as it was. *)
Theorem null_ops_preserve_values (m : memory) (block c s c' s' k offset : Z) :
  header_ok l m block ->
  0 <= c < N -> 0 <= s < num_slots_ l ->
  0 <= c' < N -> 0 <= s' < num_slots_ l ->
  0 <= k < size_of c' ->
  let a := ColumnStart l m block c' + attr_offset_in_column l c' s' + k in
  SetNull m block c s a = m a
  /\ fst (AccessForceNotNull l m block c s) a = m a
  /\ snd (fst (Allocate l m block offset)) a = m a.
Proof.
  intros Hh Hc Hs Hc' Hs' Hk a. split; [|split].
  - unfold SetNull. now apply (Flip_preserves_attribute _ _ _ Hvalid).
  - rewrite AccessForceNotNull_eq. cbn [fst].
    now apply (Flip_preserves_attribute _ _ _ Hvalid).
  - destruct (Allocate l m block offset) as [[ok m'] i] eqn:E. cbn [fst snd].
    destruct ok.
    + destruct (Allocate_true_inv m block offset m' i E) as (Hi & _ & _ & ->).
      apply (Flip_preserves_attribute _ _ _ Hvalid); try assumption.
      apply primary_key_in_range.
    + pose proof (Allocate_loop_contract (Z.to_nat (num_slots_ l))
        (ColumnNullBitmap m block PRIMARY_KEY_OFFSET) 0 m offset) as C.
      unfold Allocate in E. rewrite E in C.
      destruct C as [_ C]. destruct (C eq_refl) as [_ ->]. reflexivity.
Qed.

End AccessorTheorems.

(** ** Attribute addresses *)

Section AttributeAddresses.

Variable BLOCK_SIZE N : Z.
Variable sizes : list Z.
Hypothesis Hvalid : layout_valid BLOCK_SIZE N sizes.

Local Abbreviation l := (mkBlockLayout BLOCK_SIZE N sizes).
Local Abbreviation size_of c := (nth (Z.to_nat c) sizes 0).

Import RawConcurrentBitmap TupleAccessStrategy.

(** X9: the address a forced not-null write returns lies inside the block,
    after the header, with room for the whole attribute before the end of
    the block; a null-checked read returns either the null pointer or such
    an address. *)
Theorem attribute_in_bounds (m : memory) (block c s : Z) :
  header_ok l m block -> 0 < block ->
  0 <= c < N -> 0 <= s < num_slots_ l ->
  let in_block p :=
    block + header_size_ l <= p /\ p + size_of c <= block + BLOCK_SIZE in
  in_block (snd (AccessForceNotNull l m block c s))
  /\ (AccessWithNullCheck l m block c s = nullptr
      \/ in_block (AccessWithNullCheck l m block c s)).
Proof.
  intros Hh Hblock Hc Hs in_block.
  assert (Hin : forall m', header_ok l m' block ->
            in_block (ColumnStart l m' block c + attr_offset_in_column l c s)).
  { intros m' Hh'.
    destruct (attribute_address _ _ _ Hvalid m' block c s Hh' Hc Hs) as (-> & Hend).
    pose proof (column_offset_of_bounds _ _ _ Hvalid c Hc) as (Hlo & Hhi).
    pose proof (BitmapSize_bounds (num_slots_ l)).
    pose proof (valid_size_nth _ _ _ Hvalid c Hc) as Hsz. unfold attr_size_ok in Hsz.
    unfold in_block. split; [nia | lia]. }
  split.
  - rewrite AccessForceNotNull_eq. cbn [snd]. apply Hin.
    apply (Flip_header_ok _ _ _ Hvalid); (assumption || lia).
  - unfold AccessWithNullCheck.
    destruct (Test m (ColumnNullBitmap m block c) s); cbn [negb].
    + right. now apply Hin.
    + now left.
Qed.

(** X10: the attributes of two different (column, slot) pairs occupy
    disjoint byte ranges: one ends at or before the address where the other
    starts. *)
Theorem attributes_disjoint (m : memory) (block c s c' s' : Z) :
  header_ok l m block ->
  0 <= c < N -> 0 <= s < num_slots_ l ->
  0 <= c' < N -> 0 <= s' < num_slots_ l ->
  c' <> c \/ s' <> s ->
  let p := ColumnStart l m block c + attr_offset_in_column l c s in
  let p' := ColumnStart l m block c' + attr_offset_in_column l c' s' in
  p + size_of c <= p' \/ p' + size_of c' <= p.
Proof.
  intros Hh Hc Hs Hc' Hs' Hne. cbv zeta.
  destruct (attribute_address _ _ _ Hvalid m block c s Hh Hc Hs) as (-> & Hend).
  destruct (attribute_address _ _ _ Hvalid m block c' s' Hh Hc' Hs') as (-> & Hend').
  pose proof (BitmapSize_bounds (num_slots_ l)).
  pose proof (valid_size_nth _ _ _ Hvalid c Hc) as Hsz.
  pose proof (valid_size_nth _ _ _ Hvalid c' Hc') as Hsz'.
  unfold attr_size_ok in *.
  destruct (Z.eq_dec c' c) as [->|Hcc].
  - destruct Hne as [Hne|Hne]; [contradiction|].
    destruct (Z.lt_ge_cases s s'); [left | right]; nia.
  - destruct (Z.lt_ge_cases c c').
    + left.
      pose proof (column_regions_ordered _ _ _ Hvalid c c' ltac:(lia) ltac:(lia)).
      nia.
    + right.
      pose proof (column_regions_ordered _ _ _ Hvalid c' c ltac:(lia) ltac:(lia)).
      nia.
Qed.

(** X12: operations on the null bits of two different (column, slot) pairs
    commute: a [SetNull] and an [AccessForceNotNull], two [SetNull]s or two
    [AccessForceNotNull]s leave the same byte at every address whichever of
    the two runs first. *)
Theorem null_ops_commute (m : memory) (block c1 s1 c2 s2 : Z) :
  header_ok l m block ->
  0 <= c1 < N -> 0 <= s1 < num_slots_ l ->
  0 <= c2 < N -> 0 <= s2 < num_slots_ l ->
  c2 <> c1 \/ s2 <> s1 ->
  forall a,
    SetNull (fst (AccessForceNotNull l m block c2 s2)) block c1 s1 a
    = fst (AccessForceNotNull l (SetNull m block c1 s1) block c2 s2) a
    /\ SetNull (SetNull m block c2 s2) block c1 s1 a
       = SetNull (SetNull m block c1 s1) block c2 s2 a
    /\ fst (AccessForceNotNull l (fst (AccessForceNotNull l m block c2 s2)) block c1 s1) a
       = fst (AccessForceNotNull l (fst (AccessForceNotNull l m block c1 s1)) block c2 s2) a.
Proof.
  intros Hh Hc1 Hs1 Hc2 Hs2 Hne a.
  assert (Hflips : forall e1 e2,
    fst (Flip (fst (Flip m (ColumnNullBitmap m block c2) s2 e2))
           (ColumnNullBitmap (fst (Flip m (ColumnNullBitmap m block c2) s2 e2)) block c1)
           s1 e1) a
    = fst (Flip (fst (Flip m (ColumnNullBitmap m block c1) s1 e1))
             (ColumnNullBitmap (fst (Flip m (ColumnNullBitmap m block c1) s1 e1)) block c2)
             s2 e2) a).
  { intros e1 e2.
    assert (Hb1 : forall c s e c', 0 <= c < N -> 0 <= s -> 0 <= c' < N ->
              ColumnNullBitmap (fst (Flip m (ColumnNullBitmap m block c) s e)) block c'
              = ColumnNullBitmap m block c').
    { intros c s e c' Hc Hs Hc'.
      pose proof (Flip_header_ok _ _ _ Hvalid m block c s e Hh Hc Hs) as Hh'.
      rewrite (ColumnNullBitmap_header_ok _ _ _ _ block c' Hh' Hc').
      now rewrite (ColumnNullBitmap_header_ok _ _ _ m block c' Hh Hc'). }
    rewrite !Hb1 by (assumption || lia).
    symmetry. apply Flip_commute.
    destruct (null_bits_distinct _ _ _ Hvalid m block c1 s1 c2 s2 Hh Hc1 Hs1 Hc2 Hs2 Hne)
      as [H|H]; [left | right]; congruence. }
  unfold SetNull. rewrite !AccessForceNotNull_eq. cbn [fst].
  split; [|split].
  - apply (Hflips true false).
  - apply (Hflips true true).
  - apply (Hflips false false).
Qed.

End AttributeAddresses.

(** ** The slot count against the room in the block *)

(** X11: the slot count the calculator settles on is close to the most
    the block can take: for a valid layout whose block size times 8 fits in
    32 bits, the geometry for two slots more than [num_slots_] is larger
    than the block. *)
Theorem slot_count_near_max (BLOCK_SIZE N : Z) (sizes : list Z) :
  layout_valid BLOCK_SIZE N sizes ->
  8 * BLOCK_SIZE < 2 ^ 32 ->
  let l := mkBlockLayout BLOCK_SIZE N sizes in
  BLOCK_SIZE
  < header_size_ l + sumZ (map (mini_block_bytes (num_slots_ l + 2)) sizes).
Proof.
  intros Hvalid H8 l.
  pose proof Hvalid as (Hok & HB & HH & HQ).
  destruct (mkBlockLayout_fields BLOCK_SIZE N sizes Hok) as (_ & _ & HT & Hhs & HS).
  fold l in HT, Hhs, HS.
  pose proof (valid_num_attrs _ _ _ Hvalid) as (_ & HN & HN1).
  pose proof (sumZ_bounds sizes (proj2 (proj2 Hok))) as HTb.
  rewrite (HeaderSize_exact N sizes Hok) in HH.
  unfold NumSlots_quotient in HQ.
  rewrite (ComputeTupleSize_sum N sizes Hok), (HeaderSize_exact N sizes Hok),
    (denominator_exact N sizes Hok) in HQ.
  rewrite (u32_small (BLOCK_SIZE - _)) in HS, HQ by lia.
  rewrite (u32_small (8 * _)) in HS, HQ by lia.
  set (num := 8 * (BLOCK_SIZE - (14 + 5 * N))) in *.
  set (den := 8 * sumZ sizes + N) in *.
  assert (Hden : 0 < den) by (subst den; lia).
  pose proof (Z.div_mod num den ltac:(lia)) as Hdm.
  pose proof (Z.mod_pos_bound num den Hden) as Hr.
  assert (Hq : num / den <= num) by (apply Z.div_le_upper_bound; subst num; nia).
  rewrite u32_small in HS by (subst num; lia).
  rewrite sumZ_mini_blocks, Hhs, HS, <- HN.
  set (q := num / den) in *.
  pose proof (BitmapSize_bounds (q - 1 + 2)) as Hbm.
  assert (N * (q - 1 + 2) <= N * (8 * BitmapSize (q - 1 + 2))) by nia.
  assert (num < (q + 1) * den) by nia.
  subst den num. nia.
Qed.

(** ** The further properties on the scenario block *)

Lemma scenario_layout_valid : layout_valid 1264 2 [8; 4].
Proof.
  unfold layout_valid, layout_input_ok, attr_size_ok.
  repeat split; try (vm_compute; (reflexivity || discriminate)).
  repeat constructor; lia.
Qed.

Lemma scenario_memory_header_ok :
  header_ok scenario_layout scenario_memory example_block.
Proof.
  intros c Hc. change (num_attrs_ scenario_layout) with 2 in Hc.
  assert (Hcases : c = 0 \/ c = 1) by lia.
  destruct Hcases as [-> | ->]; vm_compute; reflexivity.
Qed.

Ltac slot_in_range := vm_compute; split; [discriminate | reflexivity].

Lemma scenario_first_allocation :
  TupleAccessStrategy.Allocate scenario_layout scenario_memory example_block 99
  = (true,
     fst (RawConcurrentBitmap.Flip scenario_memory
            (TupleAccessStrategy.ColumnNullBitmap scenario_memory example_block
               PRIMARY_KEY_OFFSET) 0 false),
     0).
Proof. reflexivity. Qed.


Lemma free_then_allocate_witness :
  exists m3,
    TupleAccessStrategy.Allocate scenario_layout
      (TupleAccessStrategy.SetNull
         (fst (RawConcurrentBitmap.Flip scenario_memory
                 (TupleAccessStrategy.ColumnNullBitmap scenario_memory example_block
                    PRIMARY_KEY_OFFSET) 0 false))
         example_block PRIMARY_KEY_OFFSET 0)
      example_block 5
    = (true, m3, 0).
Proof.
  exact (proj2 (free_then_allocate 1264 2 [8; 4] scenario_layout_valid
           scenario_memory example_block 99 _ 0 5 scenario_memory_header_ok
           scenario_first_allocation)).
Defined.

Lemma AccessForceNotNull_idempotent_witness :
  TupleAccessStrategy.AccessForceNotNull scenario_layout
    (fst (TupleAccessStrategy.AccessForceNotNull scenario_layout scenario_memory
            example_block 1 3)) example_block 1 3
  = TupleAccessStrategy.AccessForceNotNull scenario_layout scenario_memory
      example_block 1 3.
Proof.
  apply (AccessForceNotNull_idempotent 1264 2 [8; 4] scenario_layout_valid).
  - exact scenario_memory_header_ok.
  - lia.
  - slot_in_range.
Defined.

Lemma SetNull_idempotent_witness :
  TupleAccessStrategy.SetNull
    (TupleAccessStrategy.SetNull scenario_memory example_block 1 3) example_block 1 3
  = TupleAccessStrategy.SetNull scenario_memory example_block 1 3.
Proof.
  apply (SetNull_idempotent 1264 2 [8; 4] scenario_layout_valid).
  - exact scenario_memory_header_ok.
  - lia.
  - slot_in_range.
Defined.

Lemma null_ops_leave_other_attributes_witness :
  TupleAccessStrategy.AccessWithNullCheck scenario_layout
    (fst (TupleAccessStrategy.AccessForceNotNull scenario_layout scenario_memory
            example_block 0 8)) example_block 1 8
  = TupleAccessStrategy.AccessWithNullCheck scenario_layout scenario_memory
      example_block 1 8.
Proof.
  refine (proj2 (null_ops_leave_other_attributes 1264 2 [8; 4] scenario_layout_valid
            scenario_memory example_block 0 8 1 8 scenario_memory_header_ok
            _ _ _ _ _)).
  - lia.
  - slot_in_range.
  - lia.
  - slot_in_range.
  - left. lia.
Defined.

Lemma null_ops_preserve_values_witness :
  TupleAccessStrategy.SetNull scenario_memory example_block 0 8
    (TupleAccessStrategy.ColumnStart scenario_layout scenario_memory example_block 1
     + TupleAccessStrategy.attr_offset_in_column scenario_layout 1 8 + 3)
  = scenario_memory
      (TupleAccessStrategy.ColumnStart scenario_layout scenario_memory example_block 1
       + TupleAccessStrategy.attr_offset_in_column scenario_layout 1 8 + 3).
Proof.
  refine (proj1 (null_ops_preserve_values 1264 2 [8; 4] scenario_layout_valid
            scenario_memory example_block 0 8 1 8 3 99 scenario_memory_header_ok
            _ _ _ _ _)).
  - lia.
  - slot_in_range.
  - lia.
  - slot_in_range.
  - vm_compute. split; [discriminate | reflexivity].
Defined.

Lemma attribute_in_bounds_witness :
  example_block + header_size_ scenario_layout
  <= snd (TupleAccessStrategy.AccessForceNotNull scenario_layout scenario_memory
            example_block 1 99)
  /\ snd (TupleAccessStrategy.AccessForceNotNull scenario_layout scenario_memory
            example_block 1 99) + 4
     <= example_block + 1264.
Proof.
  refine (proj1 (attribute_in_bounds 1264 2 [8; 4] scenario_layout_valid
            scenario_memory example_block 1 99 scenario_memory_header_ok _ _ _)).
  - reflexivity.
  - lia.
  - slot_in_range.
Defined.

Lemma attributes_disjoint_witness :
  TupleAccessStrategy.ColumnStart scenario_layout scenario_memory example_block 0
  + TupleAccessStrategy.attr_offset_in_column scenario_layout 0 99 + 8
  <= TupleAccessStrategy.ColumnStart scenario_layout scenario_memory example_block 1
     + TupleAccessStrategy.attr_offset_in_column scenario_layout 1 0
  \/ TupleAccessStrategy.ColumnStart scenario_layout scenario_memory example_block 1
     + TupleAccessStrategy.attr_offset_in_column scenario_layout 1 0 + 4
     <= TupleAccessStrategy.ColumnStart scenario_layout scenario_memory example_block 0
        + TupleAccessStrategy.attr_offset_in_column scenario_layout 0 99.
Proof.
  refine (attributes_disjoint 1264 2 [8; 4] scenario_layout_valid
            scenario_memory example_block 0 99 1 0 scenario_memory_header_ok
            _ _ _ _ _).
  - lia.
  - slot_in_range.
  - lia.
  - slot_in_range.
  - left. lia.
Defined.

Lemma null_ops_commute_witness :
  TupleAccessStrategy.SetNull
    (fst (TupleAccessStrategy.AccessForceNotNull scenario_layout scenario_memory
            example_block 0 9)) example_block 0 8 (example_block + 25)
  = fst (TupleAccessStrategy.AccessForceNotNull scenario_layout
           (TupleAccessStrategy.SetNull scenario_memory example_block 0 8)
           example_block 0 9) (example_block + 25).
Proof.
  refine (proj1 (null_ops_commute 1264 2 [8; 4] scenario_layout_valid
            scenario_memory example_block 0 8 0 9 scenario_memory_header_ok
            _ _ _ _ _ (example_block + 25))).
  - lia.
  - slot_in_range.
  - lia.
  - slot_in_range.
  - right. lia.
Defined.

Lemma slot_count_near_max_witness :
  1048576
  < header_size_ example_layout
    + sumZ (map (mini_block_bytes (num_slots_ example_layout + 2)) [8; 4]).
Proof.
  apply (slot_count_near_max 1048576 2 [8; 4] example_layout_valid).
  reflexivity.
Defined.

(** X13: among valid layouts the slot count grows with the block: the same
    attributes in a block at least as large, whose size times 8 still fits
    in 32 bits, get at least as many slots.  (Validity matters: a block too
    small for one tuple gets the wrapped count [2^32 - 1].) *)
Theorem slot_count_monotone (BLOCK_SIZE BLOCK_SIZE' N : Z) (sizes : list Z) :
  layout_valid BLOCK_SIZE N sizes ->
  layout_valid BLOCK_SIZE' N sizes ->
  BLOCK_SIZE <= BLOCK_SIZE' ->
  8 * BLOCK_SIZE' < 2 ^ 32 ->
  num_slots_ (mkBlockLayout BLOCK_SIZE N sizes)
  <= num_slots_ (mkBlockLayout BLOCK_SIZE' N sizes).
Proof.
  intros Hv Hv' Hle H8.
  assert (Hslots : forall B, layout_valid B N sizes -> 8 * B < 2 ^ 32 ->
            num_slots_ (mkBlockLayout B N sizes)
            = 8 * (B - (14 + 5 * N)) / (8 * sumZ sizes + N) - 1).
  { intros B HvB HB8.
    pose proof HvB as (Hok & HB & HH & HQ).
    destruct (mkBlockLayout_fields B N sizes Hok) as (_ & _ & _ & _ & HS).
    pose proof (valid_num_attrs _ _ _ HvB) as (_ & HN & HN1).
    pose proof (sumZ_bounds sizes (proj2 (proj2 Hok))) as HTb.
    rewrite (HeaderSize_exact N sizes Hok) in HH.
    unfold NumSlots_quotient in HQ.
    rewrite (ComputeTupleSize_sum N sizes Hok), (HeaderSize_exact N sizes Hok),
      (denominator_exact N sizes Hok) in HQ.
    rewrite (u32_small (B - _)) in HS, HQ by lia.
    rewrite (u32_small (8 * _)) in HS, HQ by lia.
    rewrite HS. apply u32_small.
    assert (8 * (B - (14 + 5 * N)) / (8 * sumZ sizes + N) <= 8 * (B - (14 + 5 * N))).
    { apply Z.div_le_upper_bound; [lia|].
      assert (1 <= 8 * sumZ sizes + N) by lia.
      assert (0 <= 8 * (B - (14 + 5 * N))) by lia.
      generalize dependent (8 * sumZ sizes + N).
      generalize dependent (8 * (B - (14 + 5 * N))). intros; nia. }
    lia. }
  rewrite (Hslots BLOCK_SIZE Hv ltac:(lia)), (Hslots BLOCK_SIZE' Hv' H8).
  pose proof (valid_num_attrs _ _ _ Hv) as (_ & HN & HN1).
  pose proof (sumZ_bounds sizes (proj2 (proj2 (proj1 Hv)))) as HTb.
  assert (8 * (BLOCK_SIZE - (14 + 5 * N)) / (8 * sumZ sizes + N)
          <= 8 * (BLOCK_SIZE' - (14 + 5 * N)) / (8 * sumZ sizes + N)); [|lia].
  apply Z.div_le_mono; lia.
Qed.

Lemma slot_count_monotone_witness :
  num_slots_ scenario_layout <= num_slots_ example_layout.
Proof.
  apply (slot_count_monotone 1264 1048576 2 [8; 4]).
  - exact scenario_layout_valid.
  - exact example_layout_valid.
  - lia.
  - reflexivity.
Defined.
